(** * A shallow embedding of the MiniPyEngine UCI chess engine

    The development follows [src/mini_uci_engine.py] (evaluation,
    transposition table, negamax, iterative deepening, the UCI command
    loop) and [engines/stoic_child/egine.py] (a second copy of the
    evaluation).  Python integers are [Z], the transposition table (a
    [dict]) is a [gmap Z TTEntry], and the module-level globals of the
    engine are gathered in explicit state records that every function
    receives and returns. *)

From Stdlib Require Import Ascii String ZArith Lia.
From stdpp Require Import gmap strings list pretty.

Local Open Scope Z_scope.

(** ** The rules library

    The engine is written against [python-chess]: boards, moves, move
    generation and notation all come from that library.  Everything the
    engine asks of it is collected in one interface. *)

Inductive PieceType := PAWN | KNIGHT | BISHOP | ROOK | QUEEN | KING.

Inductive Color := WHITE | BLACK.

Record Piece := mkPiece { piece_type : PieceType; color : Color }.

Global Instance PieceType_eq_dec : EqDecision PieceType.
Proof. solve_decision. Defined.

Global Instance Color_eq_dec : EqDecision Color.
Proof. solve_decision. Defined.

Class Rules := {
  Board : Type;
  Move : Type;
  Move_eq_dec :: EqDecision Move;
  (** [bool(move)]: a null move is falsy *)
  move_truthy : Move -> bool;
  (** [move.uci()] *)
  move_uci : Move -> string;
  (** [board.piece_at(sq)] *)
  piece_at : Board -> nat -> option Piece;
  (** [board.turn] *)
  turn : Board -> Color;
  (** [list(board.legal_moves)] *)
  legal_moves : Board -> list Move;
  (** [board.is_capture(m)] *)
  is_capture : Board -> Move -> bool;
  (** [board.is_game_over()] *)
  is_game_over : Board -> bool;
  (** [board.push(m)] and [board.pop()] *)
  push : Board -> Move -> Board;
  pop : Board -> Board;
  pop_push : forall b m, pop (push b m) = b;
  (** [board.transposition_key()], when the board has such a method *)
  transposition_key : Board -> option Z;
  (** [chess.polyglot.zobrist_hash(board)]; [None] when it raises *)
  zobrist_hash : Board -> option Z;
  (** [hash(board.fen())] *)
  fen_hash : Board -> Z;
  (** the board after [board.reset()] / [board.set_fen(chess.STARTING_FEN)] *)
  starting_board : Board;
  (** [board.set_fen(fen)]; [None] when it raises [ValueError] *)
  set_fen : string -> option Board;
  (** [board.push_uci(m)] and [board.push_san(m)]; [None] when they raise
      [ValueError] (malformed or illegal move) *)
  push_uci : Board -> string -> option Board;
  push_san : Board -> string -> option Board
}.

(** ** Static evaluation *)

Definition PIECE_VALUES (pt : PieceType) : Z :=
  match pt with
  | PAWN => 100
  | KNIGHT => 320
  | BISHOP => 330
  | ROOK => 500
  | QUEEN => 900
  | KING => 20000
  end.

(** [PST]: every table is [[0]*64]. *)
Definition PST (pt : PieceType) : list Z :=
  match pt with
  | PAWN => replicate 64 0
  | KNIGHT => replicate 64 0
  | BISHOP => replicate 64 0
  | ROOK => replicate 64 0
  | QUEEN => replicate 64 0
  | KING => replicate 64 0
  end.

(** [chess.SQUARES] is [range(64)]. *)
Definition SQUARES : list nat := seq 0 64.

(** ** The world outside the search thread

    While a search runs, the command loop may raise [stop_search], and
    the clock advances.  [stop_seen k] tells whether the flag has been
    raised from outside by the time the search reads it for the [k]-th
    time, [time_at k] is the [k]-th reading of [time.time()], in
    milliseconds, and [random_draw] is the number that [random.choice]
    draws.  Seen from the command loop, a running search may come to
    its end by itself: [search_done k] tells whether it has done so by
    the time the loop reads its [k]-th line. *)

Record Env := mkEnv {
  stop_seen : nat -> bool;
  time_at : nat -> Z;
  random_draw : nat;
  search_done : nat -> bool
}.

Section Engine.
Context {R : Rules}.

(** One iteration of the loop of [evaluate]: the contribution of square
    [sq] is added to the running [score]. *)
Definition evaluate_square (b : Board) (score : Z) (sq : nat) : Z :=
  match piece_at b sq with
  | Some piece =>
      let val := PIECE_VALUES (piece_type piece) in
      let pst_val := default 0 (PST (piece_type piece) !! sq) in
      match color piece with
      | WHITE => score + (val + pst_val)
      | BLACK => score - (val + pst_val)
      end
  | None => score
  end.

Definition material (b : Board) : Z :=
  foldl (evaluate_square b) 0 SQUARES.

(** [evaluate] of [mini_uci_engine.py]. *)
Definition evaluate (b : Board) : Z :=
  let score := material b in
  match turn b with
  | WHITE => score
  | BLACK => - score
  end.

(** [evaluate] of [engines/stoic_child/egine.py]: the same computation,
    preceded by a diagnostic line; [fen] is the text of [board.fen()].
    The function returns the printed lines and the score. *)
Definition stoic_evaluate (fen : string) (b : Board) : list string * Z :=
  let out := ["Board in fen: " +:+ fen] in
  let score := material b in
  (out, match turn b with
        | WHITE => score
        | BLACK => - score
        end).

(** ** Transposition table *)

Definition EXACT : Z := 0.
Definition ALPHA : Z := 1.
Definition BETA : Z := 2.

Record TTEntry := mkTTEntry {
  tt_depth : Z;
  tt_score : Z;
  tt_flag : Z;
  tt_best_move : option Move
}.

(** [get_tt_key] for a [chess.Board]: the board's own
    [transposition_key()] if it has one, else the Zobrist hash, else the
    hash of the FEN text.  (A [chess.Board] has no [chessboard]
    attribute, so the branch for wrapper objects is not taken.) *)
Definition get_tt_key (b : Board) : Z :=
  match transposition_key b with
  | Some k => k
  | None =>
      match zobrist_hash b with
      | Some k => k
      | None => fen_hash b
      end
  end.

(** ** Module state

    The globals of [mini_uci_engine.py].  [think_thread] is [None]
    before the first [go]; afterwards it is the thread object: alive,
    with the arguments it was started with, or finished.  Three fields are bookkeeping of the model:
    [log] lists what the program did to the outside world, in order;
    [polls] and [ticks] count how often [stop_search] and the clock
    have been read. *)

Record SearchArgs := mkArgs {
  arg_depth : option Z;
  arg_movetime : option Z
}.

Inductive Thread := Alive (args : SearchArgs) | Finished.

Inductive Effect :=
  | EPrint (line : string)      (* print(...) *)
  | ESetStop                    (* stop_search = True, by the command loop *)
  | EJoin                       (* think_thread.join() *)
  | EStart (args : SearchArgs)  (* threading.Thread(...).start() *)
  | ETTClear                    (* transposition_table.clear() *)
  | EBoardWrite.                (* board.reset() / board.set_fen(...) *)

Record Globals := mkGlobals {
  nodes : Z;
  transposition_table : gmap Z TTEntry;
  stop_search : bool;
  best_move_global : option Move;
  engine_options : gmap string string;
  board : Board;
  think_thread : option Thread;
  log : list Effect;
  polls : nat;
  ticks : nat
}.

Definition set_nodes (v : Z) (g : Globals) : Globals :=
  mkGlobals v (transposition_table g) (stop_search g) (best_move_global g)
    (engine_options g) (board g) (think_thread g) (log g) (polls g) (ticks g).

Definition set_transposition_table (v : gmap Z TTEntry) (g : Globals) : Globals :=
  mkGlobals (nodes g) v (stop_search g) (best_move_global g)
    (engine_options g) (board g) (think_thread g) (log g) (polls g) (ticks g).

Definition set_stop_search (v : bool) (g : Globals) : Globals :=
  mkGlobals (nodes g) (transposition_table g) v (best_move_global g)
    (engine_options g) (board g) (think_thread g) (log g) (polls g) (ticks g).

Definition set_best_move_global (v : option Move) (g : Globals) : Globals :=
  mkGlobals (nodes g) (transposition_table g) (stop_search g) v
    (engine_options g) (board g) (think_thread g) (log g) (polls g) (ticks g).

Definition set_engine_options (v : gmap string string) (g : Globals) : Globals :=
  mkGlobals (nodes g) (transposition_table g) (stop_search g) (best_move_global g)
    v (board g) (think_thread g) (log g) (polls g) (ticks g).

Definition set_board (v : Board) (g : Globals) : Globals :=
  mkGlobals (nodes g) (transposition_table g) (stop_search g) (best_move_global g)
    (engine_options g) v (think_thread g) (log g) (polls g) (ticks g).

Definition set_think_thread (v : option Thread) (g : Globals) : Globals :=
  mkGlobals (nodes g) (transposition_table g) (stop_search g) (best_move_global g)
    (engine_options g) (board g) v (log g) (polls g) (ticks g).

Definition set_polls (v : nat) (g : Globals) : Globals :=
  mkGlobals (nodes g) (transposition_table g) (stop_search g) (best_move_global g)
    (engine_options g) (board g) (think_thread g) (log g) v (ticks g).

Definition set_ticks (v : nat) (g : Globals) : Globals :=
  mkGlobals (nodes g) (transposition_table g) (stop_search g) (best_move_global g)
    (engine_options g) (board g) (think_thread g) (log g) (polls g) v.

Definition emit (e : Effect) (g : Globals) : Globals :=
  mkGlobals (nodes g) (transposition_table g) (stop_search g) (best_move_global g)
    (engine_options g) (board g) (think_thread g) (log g ++ [e]) (polls g) (ticks g).

Definition print (line : string) (g : Globals) : Globals := emit (EPrint line) g.

(** The lines written to standard output so far. *)
Definition stdout (g : Globals) : list string :=
  omap (fun e => match e with EPrint l => Some l | _ => None end) (log g).

(** ** Move ordering

    [moves.sort(key=lambda m: board.is_capture(m), reverse=True)]:
    Python's sort is stable, and stays so under [reverse=True], so a
    move is placed behind exactly those moves that come before it in the
    list or carry a strictly larger key. *)

Fixpoint insert_by_key {A} (key : A -> bool) (x : A) (l : list A) : list A :=
  match l with
  | [] => [x]
  | y :: l' =>
      if negb (key x) && key y then y :: insert_by_key key x l'
      else x :: l
  end.

Fixpoint sort_reverse {A} (key : A -> bool) (l : list A) : list A :=
  match l with
  | [] => []
  | x :: l' => insert_by_key key x (sort_reverse key l')
  end.

(** [moves.remove(x)]: drops the first element equal to [x]. *)
Fixpoint list_remove_first {A} `{EqDecision A} (x : A) (l : list A) : list A :=
  match l with
  | [] => []
  | y :: l' => if decide (y = x) then l' else y :: list_remove_first x l'
  end.

(** ** Negamax *)

(** Lines 102-110: the transposition-table cutoff; [None] when the
    search has to go on. *)
Definition tt_cutoff (tt : gmap Z TTEntry) (key depth alpha beta : Z) : option Z :=
  match tt !! key with
  | Some entry =>
      if tt_depth entry >=? depth then
        if tt_flag entry =? EXACT then Some (tt_score entry)
        else if (tt_flag entry =? ALPHA) && (tt_score entry <=? alpha) then Some alpha
        else if (tt_flag entry =? BETA) && (tt_score entry >=? beta) then Some beta
        else None
      else None
  | None => None
  end.

(** Lines 122-132: the loop over the ordered moves.  [search] is the
    recursive call [negamax(board, depth-1, ., .)]; the loop returns
    [max_score], [best_local] and the final [alpha]. *)
Fixpoint negamax_loop (search : Z -> Z -> Globals -> option (Z * Globals))
    (moves : list Move) (alpha beta max_score : Z) (best_local : option Move)
    (g : Globals) : option (Z * option Move * Z * Globals) :=
  match moves with
  | [] => Some (max_score, best_local, alpha, g)
  | mv :: rest =>
      let g := set_board (push (board g) mv) g in
      '(r, g) ← search (- beta) (- alpha) g;
      let score := - r in
      let g := set_board (pop (board g)) g in
      let '(max_score, best_local) :=
        if score >? max_score then (score, Some mv) else (max_score, best_local) in
      let alpha := Z.max alpha score in
      if alpha >=? beta then Some (max_score, best_local, alpha, g)
      else negamax_loop search rest alpha beta max_score best_local g
  end.

(** [negamax]; [fuel] bounds the nesting of recursive calls, and the
    result is [None] when it does not suffice. *)
Fixpoint negamax (fuel : nat) (depth alpha beta : Z) (g : Globals)
    : option (Z * Globals) :=
  match fuel with
  | O => None
  | S fuel' =>
      let g := set_nodes (nodes g + 1) g in
      let key := get_tt_key (board g) in
      match tt_cutoff (transposition_table g) key depth alpha beta with
      | Some v => Some (v, g)
      | None =>
          if (depth =? 0) || is_game_over (board g) then Some (evaluate (board g), g)
          else
            let max_score := -9999999 in
            let best_local := None in
            let moves := legal_moves (board g) in
            let moves := sort_reverse (is_capture (board g)) moves in
            '(max_score, best_local, alpha, g) ←
              negamax_loop (negamax fuel' (depth - 1)) moves alpha beta
                max_score best_local g;
            let flag :=
              if max_score <=? alpha then ALPHA
              else if max_score >=? beta then BETA
              else EXACT in
            let g := set_transposition_table
                       (<[key := mkTTEntry depth max_score flag best_local]>
                          (transposition_table g)) g in
            Some (max_score, g)
      end
  end.

(** ** Iterative deepening *)

(** Reading the global [stop_search] from the search thread. *)
Definition read_stop (W : Env) (g : Globals) : bool * Globals :=
  let seen := stop_search g || stop_seen W (polls g) in
  (seen, set_polls (S (polls g)) (set_stop_search seen g)).

(** [time.time()] *)
Definition time_time (W : Env) (g : Globals) : Z * Globals :=
  (time_at W (ticks g), set_ticks (S (ticks g)) g).

(** [time_limit and (time.time() - start_time) > time_limit]; the clock
    is read only when [time_limit] is truthy. *)
Definition time_is_up (W : Env) (time_limit : option Z) (start_time : Z)
    (g : Globals) : bool * Globals :=
  match time_limit with
  | Some limit =>
      if limit =? 0 then (false, g)
      else let '(now, g) := time_time W g in (now - start_time >? limit, g)
  | None => (false, g)
  end.

(** [range(lo, hi)] *)
Definition py_range (lo hi : Z) : list Z :=
  (fun i => lo + Z.of_nat i) <$> seq 0 (Z.to_nat (hi - lo)).

(** Lines 163-166: the hint move is moved to the front, then the list is
    sorted by the capture key. *)
Definition order_root_moves (b : Board) (tt_move : option Move)
    (moves : list Move) : list Move :=
  let moves :=
    match tt_move with
    | Some m =>
        if move_truthy m && bool_decide (m ∈ moves)
        then m :: list_remove_first m moves
        else moves
    | None => moves
    end in
  sort_reverse (is_capture b) moves.

(** Lines 159-166 *)
Definition root_moves (g : Globals) : list Move :=
  let key := get_tt_key (board g) in
  let tt_move :=
    match transposition_table g !! key with
    | Some entry => tt_best_move entry
    | None => None
    end in
  order_root_moves (board g) tt_move (legal_moves (board g)).

(** Lines 168-180: the loop over the root moves at depth [d]. *)
Fixpoint root_loop (W : Env) (d : Z) (time_limit : option Z) (start_time : Z)
    (moves : list Move) (alpha beta best_score : Z) (best : option Move)
    (g : Globals) : option (Z * option Move * Globals) :=
  match moves with
  | [] => Some (best_score, best, g)
  | mv :: rest =>
      let '(stop, g) := read_stop W g in
      if stop then Some (best_score, best, g)
      else
        let g := set_board (push (board g) mv) g in
        '(r, g) ← negamax (S (Z.to_nat (d - 1))) (d - 1) (- beta) (- alpha) g;
        let score := - r in
        let g := set_board (pop (board g)) g in
        let '(best_score, best) :=
          if score >? best_score then (score, Some mv) else (best_score, best) in
        let '(late, g) := time_is_up W time_limit start_time g in
        if late then Some (best_score, best, set_stop_search true g)
        else root_loop W d time_limit start_time rest alpha beta best_score best g
  end.

(** Lines 152-188: the loop over the depths. *)
Fixpoint depth_loop (W : Env) (time_limit : option Z) (start_time : Z)
    (depths : list Z) (best : option Move) (g : Globals)
    : option (option Move * Globals) :=
  match depths with
  | [] => Some (best, g)
  | d :: rest =>
      let '(stop, g) := read_stop W g in
      if stop then Some (best, g)
      else
        let best_score := -9999999 in
        let alpha := -10000000 in
        let beta := 10000000 in
        let moves := root_moves g in
        '(best_score, best, g) ←
          root_loop W d time_limit start_time moves alpha beta best_score best g;
        let g := set_best_move_global best g in
        let g := print ("info depth " +:+ pretty d +:+ " nodes " +:+ pretty (nodes g)
                        +:+ " score cp " +:+ pretty best_score) g in
        let '(late, g) := time_is_up W time_limit start_time g in
        if late then Some (best, g)
        else depth_loop W time_limit start_time rest best g
  end.

(** [search_root]; [time_limit] is in milliseconds. *)
Definition search_root (W : Env) (max_depth : Z) (time_limit : option Z)
    (g : Globals) : option (option Move * Globals) :=
  let best := None in
  let '(start_time, g) := time_time W g in
  let g := set_nodes 0 g in
  let g := set_stop_search false g in
  depth_loop W time_limit start_time (py_range 1 (max_depth + 1)) best g.

(** ** The search thread *)

(** [random.choice(moves)] for a non-empty list. *)
Definition random_choice (W : Env) (moves : list Move) : option Move :=
  moves !! (random_draw W mod length moves)%nat.

(** Lines 199-204 of [think_thread_fn]: the globals are reset and the
    search is run.  [movetime/1000.0 if movetime else None] keeps the
    limit in milliseconds here. *)
Definition think_search (W : Env) (search_args : SearchArgs) (g : Globals)
    : option (option Move * Globals) :=
  let g := set_stop_search false g in
  let g := set_best_move_global None g in
  let depth := default 4 (arg_depth search_args) in
  let movetime := arg_movetime search_args in
  let time_limit :=
    match movetime with
    | Some m => if m =? 0 then None else Some m
    | None => None
    end in
  search_root W depth time_limit g.

(** [best.uci() if best else '0000'] *)
Definition bestmove_text (best : option Move) : string :=
  match best with
  | Some m => if move_truthy m then move_uci m else "0000"
  | None => "0000"
  end.

(** [think_thread_fn] *)
Definition think_thread_fn (W : Env) (search_args : SearchArgs) (g : Globals)
    : option Globals :=
  '(best, g) ← think_search W search_args g;
  let best :=
    match best with
    | None =>
        let moves := legal_moves (board g) in
        match moves with
        | [] => None
        | _ :: _ => random_choice W moves
        end
    | Some _ => best
    end in
  Some (print ("bestmove " +:+ bestmove_text best) g).

End Engine.

(** ** Python string and list primitives used by the command loop

    Input is taken to be ASCII text. *)

Module Py.

(** [str.isspace] on ASCII: tab, line feed, vertical tab, form feed,
    carriage return, the separators U+001C..U+001F, and space. *)
Definition isspace (c : ascii) : bool :=
  let n := nat_of_ascii c in
  ((9 <=? n) && (n <=? 13) || (28 <=? n) && (n <=? 32))%nat.

Fixpoint lstrip (s : string) : string :=
  match s with
  | String c s' => if isspace c then lstrip s' else s
  | EmptyString => EmptyString
  end.

(** [s.strip()] *)
Definition strip (s : string) : string :=
  String.rev (lstrip (String.rev (lstrip s))).

(** [s.split()]: the maximal runs of non-space characters; [word] is
    the run being read. *)
Fixpoint split_go (word : string) (s : string) : list string :=
  match s with
  | EmptyString => if decide (word = "") then [] else [word]
  | String c s' =>
      if isspace c
      then (if decide (word = "") then [] else [word]) ++ split_go "" s'
      else split_go (word +:+ String c "") s'
  end.

Definition split (s : string) : list string := split_go "" s.

(** [sep.join(l)] *)
Fixpoint join (sep : string) (l : list string) : string :=
  match l with
  | [] => ""
  | [x] => x
  | x :: l' => x +:+ sep +:+ join sep l'
  end.

(** [s.startswith(p)] *)
Definition startswith (s p : string) : bool := String.prefix p s.

(** [l.index(x)]; [None] when it raises [ValueError] *)
Fixpoint index (x : string) (l : list string) : option nat :=
  match l with
  | [] => None
  | y :: l' => if decide (y = x) then Some 0%nat else S <$> index x l'
  end.

(** [x in l] *)
Definition contains (x : string) (l : list string) : bool :=
  bool_decide (x ∈ l).

(** [l[i:j]] for non-negative [i], [j] *)
Definition slice {A} (l : list A) (i j : nat) : list A := take (j - i) (drop i l).

(** The digits of [int(s)], with single underscores allowed between
    digits; [fresh] tells that the previous character was a digit. *)
Fixpoint digits (acc : Z) (fresh : bool) (s : string) : option Z :=
  match s with
  | EmptyString => if fresh then Some acc else None
  | String c s' =>
      match Ascii.is_nat c with
      | Some n => digits (10 * acc + Z.of_nat n) true s'
      | None =>
          if decide (c = "_"%char) then
            if fresh then digits acc false s' else None
          else None
      end
  end.

(** [int(s)] for a token without white space; [None] when it raises
    [ValueError]. *)
Definition int (s : string) : option Z :=
  match s with
  | String "+" s' => digits 0 false s'
  | String "-" s' => Z.opp <$> digits 0 false s'
  | _ => digits 0 false s
  end.

End Py.

(** ** The command loop *)

Inductive Exn := ValueError | IndexError.

(** What one pass through the body of the [while True] loop leads to:
    the next iteration, [break], or an exception that nothing in
    [uci_loop] catches. *)
Inductive Outcome {R : Rules} :=
  | Continue (g : Globals)
  | Break (g : Globals)
  | Raise (e : Exn) (g : Globals).

(** How [uci_loop] ends: it returns, or an exception leaves it. *)
Inductive Exit {R : Rules} :=
  | Returned (g : Globals)
  | Uncaught (e : Exn) (g : Globals).

Section Session.
Context {R : Rules}.

(** The work of the search thread, [think_thread_fn(args)], on the
    globals it shares with the command loop.  The thread runs beside the
    loop; here its work is entered in one piece, at the moment the loop
    waits for the thread or finds that it has ended.  (The search always
    returns, so the second branch is never taken.) *)
Definition run_thread (W : Env) (args : SearchArgs) (g : Globals) : Globals :=
  match think_thread_fn W args g with
  | Some g' => g'
  | None => g
  end.

(** A running search thread comes to its end. *)
Definition finish_thread (W : Env) (g : Globals) : Globals :=
  match think_thread g with
  | Some (Alive args) => set_think_thread (Some Finished) (run_thread W args g)
  | _ => g
  end.

(** [think_thread.join()]: returns when the thread has ended. *)
Definition join_thread (W : Env) (g : Globals) : Globals :=
  emit EJoin (finish_thread W g).

(** What has become of the search thread when the loop reads its [k]-th
    line: a running search may have ended by itself. *)
Definition settle (W : Env) (k : nat) (g : Globals) : Globals :=
  match think_thread g with
  | Some (Alive _) => if search_done W k then finish_thread W g else g
  | _ => g
  end.

(** [stop_search = True] in the command loop *)
Definition raise_stop (g : Globals) : Globals :=
  emit ESetStop (set_stop_search true g).

(** Lines 241-250 *)
Definition do_setoption (line : string) (g : Globals) : Outcome :=
  let parts := Py.split line in
  match Py.index "name" parts with
  | None => Continue g
  | Some i =>
      let name_idx := (i + 1)%nat in
      match Py.index "value" parts with
      | None => Continue g
      | Some j =>
          let val_idx := (j + 1)%nat in
          let name := Py.join " " (Py.slice parts name_idx (val_idx - 1)) in
          let value := Py.join " " (drop val_idx parts) in
          Continue (set_engine_options (<[name := value]> (engine_options g)) g)
      end
  end.

(** Lines 254-255 *)
Definition do_ucinewgame (g : Globals) : Outcome :=
  let g := emit ETTClear (set_transposition_table ∅ g) in
  let g := emit EBoardWrite (set_board starting_board g) in
  Continue g.

(** [for m in moves: <push>(m)]: the moves are applied one by one; the
    first one that raises ends the loop and the command. *)
Fixpoint replay (pushf : Board -> string -> option Board) (moves : list string)
    (g : Globals) : Outcome :=
  match moves with
  | [] => Continue g
  | m :: rest =>
      match pushf (board g) m with
      | Some b' => replay pushf rest (emit EBoardWrite (set_board b' g))
      | None => Raise ValueError g
      end
  end.

(** [board.push_san(m) if len(m) > 4 else board.push_uci(m)] *)
Definition push_san_or_uci (b : Board) (m : string) : option Board :=
  if (4 <? String.length m)%nat then push_san b m else push_uci b m.

(** Lines 259-280 *)
Definition do_position (line : string) (g : Globals) : Outcome :=
  let tokens := Py.split line in
  match tokens !! 1%nat with
  | None => Raise IndexError g
  | Some t1 =>
      if decide (t1 = "startpos") then
        let g := emit EBoardWrite (set_board starting_board g) in
        if Py.contains "moves" tokens then
          let idx := (default 0%nat (Py.index "moves" tokens) + 1)%nat in
          let moves := drop idx tokens in
          replay push_san_or_uci moves g
        else Continue g
      else if decide (t1 = "fen") then
        let fen_tokens := drop 2 tokens in
        let '(fen, moves) :=
          if Py.contains "moves" fen_tokens then
            let idx := default 0%nat (Py.index "moves" fen_tokens) in
            (Py.join " " (take idx fen_tokens), drop (idx + 1) fen_tokens)
          else (Py.join " " fen_tokens, []) in
        match set_fen fen with
        | None => Raise ValueError g
        | Some b' =>
            let g := emit EBoardWrite (set_board b' g) in
            replay push_uci moves g
        end
      else Continue g
  end.

(** [int(tokens[tokens.index(name)+1])] when [name in tokens] *)
Definition go_parameter (name : string) (tokens : list string)
    : Exn + option Z :=
  if Py.contains name tokens then
    match tokens !! (default 0%nat (Py.index name tokens) + 1)%nat with
    | None => inl IndexError
    | Some t =>
        match Py.int t with
        | None => inl ValueError
        | Some v => inr (Some v)
        end
    end
  else inr None.

(** Lines 284-296; [think_thread.is_alive()] holds of a thread that has
    not ended. *)
Definition do_go (W : Env) (line : string) (g : Globals) : Outcome :=
  let tokens := Py.split line in
  match go_parameter "depth" tokens with
  | inl e => Raise e g
  | inr depth =>
      match go_parameter "movetime" tokens with
      | inl e => Raise e g
      | inr movetime =>
          let args := mkArgs depth movetime in
          let g :=
            match think_thread g with
            | Some (Alive _) => join_thread W (raise_stop g)
            | _ => g
            end in
          Continue (emit (EStart args) (set_think_thread (Some (Alive args)) g))
      end
  end.

(** Lines 299-301 and 305-307 *)
Definition stop_and_join (W : Env) (g : Globals) : Globals :=
  let g := raise_stop g in
  match think_thread g with
  | Some _ => join_thread W g
  | None => g
  end.

(** The body of the loop for a stripped, non-empty [line]. *)
Definition uci_command (W : Env) (line : string) (g : Globals) : Outcome :=
  if decide (line = "uci") then
    Continue (print "uciok" (print "id author Your Name" (print "id name MiniPyEngine" g)))
  else if decide (line = "isready") then Continue (print "readyok" g)
  else if Py.startswith line "setoption" then do_setoption line g
  else if Py.startswith line "ucinewgame" then do_ucinewgame g
  else if Py.startswith line "position" then do_position line g
  else if Py.startswith line "go" then do_go W line g
  else if decide (line = "stop") then Continue (stop_and_join W g)
  else if decide (line = "quit") then Break (stop_and_join W g)
  else Continue g.

(** The [while True] loop from its [k]-th pass on, reading the lines of
    standard input in turn; the end of the list is the end of the
    input. *)
Fixpoint uci_loop_from (W : Env) (k : nat) (lines : list string) (g : Globals)
    : Exit :=
  match lines with
  | [] => Returned g
  | line :: rest =>
      let g := settle W k g in
      let line := Py.strip line in
      if decide (line = "") then uci_loop_from W (S k) rest g
      else
        match uci_command W line g with
        | Continue g => uci_loop_from W (S k) rest g
        | Break g => Returned g
        | Raise e g => Uncaught e g
        end
  end.

(** [uci_loop] *)
Definition uci_loop (W : Env) (lines : list string) (g : Globals) : Exit :=
  uci_loop_from W 0 lines g.

End Session.

(** ** Vocabulary of the properties *)

Global Instance Piece_eq_dec : EqDecision Piece.
Proof. solve_decision. Defined.

(** The same piece in the other colour. *)
Definition swap_color (p : Piece) : Piece :=
  mkPiece (piece_type p) match color p with WHITE => BLACK | BLACK => WHITE end.

(** The square on the same file with the ranks flipped ([sq ^ 56]). *)
Definition flip_rank (sq : nat) : nat := Nat.lxor sq 56.

(** What a piece on a square is worth to White. *)
Definition signed_value (p : option Piece) : Z :=
  match p with
  | Some p =>
      match color p with
      | WHITE => PIECE_VALUES (piece_type p)
      | BLACK => - PIECE_VALUES (piece_type p)
      end
  | None => 0
  end.

Section Vocabulary.
Context {R : Rules}.

(** Everything but the node counter and the table is as before. *)
Definition same_outside_search (g g' : Globals) : Prop :=
  stop_search g' = stop_search g /\
  best_move_global g' = best_move_global g /\
  engine_options g' = engine_options g /\
  board g' = board g /\
  think_thread g' = think_thread g /\
  log g' = log g /\
  polls g' = polls g /\
  ticks g' = ticks g.

(** How a search at depth [d] may change the node counter and the
    table: the counter does not go down, no key is lost, and an entry
    that was not there before has a depth between [1] and [d]. *)
Definition table_grows (d : Z) (g g' : Globals) : Prop :=
  nodes g <= nodes g' /\
  (forall k, is_Some (transposition_table g !! k) ->
             is_Some (transposition_table g' !! k)) /\
  (forall k e, transposition_table g' !! k = Some e ->
               transposition_table g !! k = Some e \/ 1 <= tt_depth e <= d).

(** What the move loop of [negamax] holds in [max_score] and
    [best_local]: the initial values, or a move of [moves] with a score
    above the initial one. *)
Definition best_so_far (moves : list Move) (max_score : Z)
    (best_local : option Move) : Prop :=
  (best_local = None /\ max_score = -9999999) \/
  (exists m, best_local = Some m /\ m ∈ moves /\ -9999999 < max_score).

(** The globals that an outcome of a command, or the end of the loop,
    leaves behind. *)
Definition outcome_globals (o : Outcome) : Globals :=
  match o with Continue g | Break g | Raise _ g => g end.

Definition exit_globals (x : Exit) : Globals :=
  match x with Returned g | Uncaught _ g => g end.

(** Whether a search thread is running. *)
Definition search_alive (g : Globals) : bool :=
  match think_thread g with Some (Alive _) => true | _ => false end.

(** The board after [pushf] has accepted every move of [moves] in turn;
    [None] if one is refused. *)
Fixpoint apply_moves (pushf : Board -> string -> option Board)
    (moves : list string) (b : Board) : option Board :=
  match moves with
  | [] => Some b
  | m :: rest =>
      match pushf b m with
      | Some b' => apply_moves pushf rest b'
      | None => None
      end
  end.

(** What a search leaves alone: the board is back where it was, and
    nothing was printed. *)
Definition untouched (g g' : Globals) : Prop :=
  board g' = board g /\ log g' = log g.

(** The lines that the search prints. *)
Definition info_line (l : string) : Prop := Py.startswith l "info " = true.

End Vocabulary.

(** ** A small rules instance

    Game trees written out by hand, used to run the engine on concrete
    positions.  A position carries an identifier (its hash key), the
    side to move, the pieces on the board, whether the game is over, and
    its moves, each with its capture flag and the position it leads to.
    Moves are numbered; move [0] is the null move. *)

Module Toy.

#[local] Set Warnings "-register-all".

Inductive Tree :=
  Node (id : Z) (side : Color) (pieces : list (nat * Piece)) (over : bool)
       (children : list (nat * bool * Tree)).

Definition id (t : Tree) : Z := let 'Node i _ _ _ _ := t in i.
Definition side (t : Tree) : Color := let 'Node _ s _ _ _ := t in s.
Definition pieces (t : Tree) : list (nat * Piece) := let 'Node _ _ p _ _ := t in p.
Definition over (t : Tree) : bool := let 'Node _ _ _ o _ := t in o.
Definition children (t : Tree) : list (nat * bool * Tree) :=
  let 'Node _ _ _ _ c := t in c.

(** A board is the current position and the positions below it on the
    move stack. *)
Record TBoard := mkBoard { cur : Tree; stack : list Tree }.

Definition find_child (t : Tree) (m : nat) : option (nat * bool * Tree) :=
  list_find (fun c => c.1.1 = m) (children t) ≫= (fun r => Some r.2).

Definition child (t : Tree) (m : nat) : Tree :=
  match find_child t m with
  | Some (_, _, t') => t'
  | None => t
  end.

Definition tpush (b : TBoard) (m : nat) : TBoard :=
  mkBoard (child (cur b) m) (cur b :: stack b).

Definition tpop (b : TBoard) : TBoard :=
  match stack b with
  | t :: s => mkBoard t s
  | [] => b
  end.

Definition tmoves (b : TBoard) : list nat := (fun c => c.1.1) <$> children (cur b).

Definition tcapture (b : TBoard) (m : nat) : bool :=
  match find_child (cur b) m with
  | Some (_, c, _) => c
  | None => false
  end.

Definition tpiece_at (b : TBoard) (sq : nat) : option Piece :=
  list_find (fun p => p.1 = sq) (pieces (cur b)) ≫= (fun r => Some r.2.2).

Definition tuci (m : nat) : string :=
  match m with
  | O => "0000"
  | _ => "m" +:+ pretty m
  end.

(** A move text is accepted when it names a legal move. *)
Definition tpush_text (b : TBoard) (s : string) : option TBoard :=
  list_find (fun m => tuci m = s) (tmoves b) ≫= (fun r => Some (tpush b r.2)).

Definition leaf (i : Z) (s : Color) (ps : list (nat * Piece)) : Tree :=
  Node i s ps true [].

(** The starting position: White has a quiet move [1] and a capture
    [2]; after the quiet move Black has one reply. *)
Definition start : Tree :=
  Node 100 WHITE [(4%nat, mkPiece KING WHITE); (60%nat, mkPiece KING BLACK);
                  (8%nat, mkPiece PAWN WHITE); (48%nat, mkPiece KNIGHT BLACK)] false
    [ (1%nat, false,
        Node 101 BLACK [(4%nat, mkPiece KING WHITE); (60%nat, mkPiece KING BLACK);
                        (16%nat, mkPiece PAWN WHITE); (48%nat, mkPiece KNIGHT BLACK)] false
          [ (3%nat, true,
              leaf 103 WHITE [(4%nat, mkPiece KING WHITE); (60%nat, mkPiece KING BLACK);
                              (16%nat, mkPiece KNIGHT BLACK)]) ]);
      (2%nat, true,
        leaf 102 BLACK [(4%nat, mkPiece KING WHITE); (60%nat, mkPiece KING BLACK);
                        (48%nat, mkPiece PAWN WHITE)]) ].

(** A position that is not reported as over although the side to move
    has no move. *)
Definition stuck : Tree :=
  Node 200 WHITE [(4%nat, mkPiece KING WHITE); (60%nat, mkPiece KING BLACK);
                  (8%nat, mkPiece PAWN WHITE)] false [].

(** The same placement with either side to move. *)
Definition placement : list (nat * Piece) :=
  [(4%nat, mkPiece KING WHITE); (60%nat, mkPiece KING BLACK);
   (0%nat, mkPiece ROOK WHITE); (57%nat, mkPiece BISHOP BLACK)].

Definition white_to_move : Tree := leaf 300 WHITE placement.
Definition black_to_move : Tree := leaf 301 BLACK placement.

(** [placement] seen from the other side: ranks flipped (square
    [sq xor 56]), colours swapped, Black to move. *)
Definition mirrored : Tree :=
  leaf 302 BLACK
    [(60%nat, mkPiece KING BLACK); (4%nat, mkPiece KING WHITE);
     (56%nat, mkPiece ROOK BLACK); (1%nat, mkPiece BISHOP WHITE)].

Definition tset_fen (s : string) : option TBoard :=
  if decide (s = "start") then Some (mkBoard start [])
  else if decide (s = "stuck") then Some (mkBoard stuck [])
  else None.

#[export] Instance rules : Rules := {|
  Board := TBoard;
  Move := nat;
  move_truthy m := negb (Nat.eqb m 0);
  move_uci := tuci;
  piece_at := tpiece_at;
  turn b := side (cur b);
  legal_moves := tmoves;
  is_capture := tcapture;
  is_game_over b := over (cur b);
  push := tpush;
  pop := tpop;
  pop_push b m := match b with mkBoard c s => eq_refl end;
  transposition_key _ := None;
  zobrist_hash b := Some (id (cur b));
  fen_hash b := id (cur b);
  starting_board := mkBoard start [];
  set_fen := tset_fen;
  push_uci := tpush_text;
  push_san := tpush_text
|}.

Definition at_position (t : Tree) : @Board rules := mkBoard t [].

(** Fresh globals with the board at position [t]. *)
Definition fresh (t : Tree) : Globals :=
  mkGlobals 0 ∅ false None ∅ (at_position t) None [] 0 0.

(** Fresh globals at [t] whose table holds [e] for the key of [t]. *)
Definition with_entry (t : Tree) (e : TTEntry) : Globals :=
  set_transposition_table {[ id t := e ]} (fresh t).

(** Nobody interferes, the clock stands still, and a search that runs
    goes on running. *)
Definition quiet : Env := mkEnv (fun _ => false) (fun _ => 0) 0 (fun _ => false).


End Toy.

(** * Properties *)

(** ** Static evaluation *)

Section EvaluateFacts.
Context {R : Rules}.

Lemma PST_zero (pt : PieceType) (sq : nat) : default 0 (PST pt !! sq) = 0.
Proof.
  destruct (PST pt !! sq) as [v|] eqn:E; [|reflexivity].
  destruct pt; apply lookup_replicate in E as [-> _]; reflexivity.
Qed.

(** The contribution of a square is the signed piece value. *)
Lemma evaluate_square_value (b : Board) (score : Z) (sq : nat) :
  evaluate_square b score sq =
    score + match piece_at b sq with
            | Some p => match color p with
                        | WHITE => PIECE_VALUES (piece_type p)
                        | BLACK => - PIECE_VALUES (piece_type p)
                        end
            | None => 0
            end.
Proof.
  unfold evaluate_square. destruct (piece_at b sq) as [p|]; [|lia].
  cbv zeta. rewrite PST_zero. destruct (color p); lia.
Qed.

Lemma evaluate_square_bound (b : Board) (score : Z) (sq : nat) :
  score - 20000 <= evaluate_square b score sq <= score + 20000.
Proof.
  rewrite evaluate_square_value.
  destruct (piece_at b sq) as [[[] []]|]; simpl; lia.
Qed.

Lemma foldl_evaluate_square_ext (b1 b2 : Board) (l : list nat) (acc : Z) :
  (forall sq, sq ∈ l -> piece_at b1 sq = piece_at b2 sq) ->
  foldl (evaluate_square b1) acc l = foldl (evaluate_square b2) acc l.
Proof.
  revert acc. induction l as [|sq l IH]; intros acc H; [reflexivity|].
  simpl. rewrite IH by (intros; apply H; set_solver).
  f_equal. unfold evaluate_square. rewrite (H sq) by set_solver. reflexivity.
Qed.

Lemma foldl_evaluate_square_bound (b : Board) (l : list nat) (acc : Z) :
  acc - 20000 * Z.of_nat (length l) <= foldl (evaluate_square b) acc l
    <= acc + 20000 * Z.of_nat (length l).
Proof.
  revert acc. induction l as [|sq l IH]; intros acc; simpl length; [simpl; lia|].
  simpl foldl. specialize (IH (evaluate_square b acc sq)).
  pose proof (evaluate_square_bound b acc sq). lia.
Qed.

(** The material count only looks at the 64 squares of the board. *)
Lemma material_ext (b1 b2 : Board) :
  (forall sq, (sq < 64)%nat -> piece_at b1 sq = piece_at b2 sq) ->
  material b1 = material b2.
Proof.
  intros H. apply foldl_evaluate_square_ext.
  intros sq Hsq. apply H. unfold SQUARES in Hsq.
  apply elem_of_seq in Hsq. lia.
Qed.

(** The score is a function of the placement and the side to move. *)
Lemma evaluate_ext (b1 b2 : Board) :
  (forall sq, (sq < 64)%nat -> piece_at b1 sq = piece_at b2 sq) ->
  turn b1 = turn b2 ->
  evaluate b1 = evaluate b2.
Proof.
  intros H Ht. unfold evaluate. rewrite (material_ext b1 b2 H), Ht. reflexivity.
Qed.

Lemma stoic_evaluate_score (fen : string) (b : Board) :
  (stoic_evaluate fen b).2 = evaluate b.
Proof. reflexivity. Qed.

Lemma evaluate_bound (b : Board) : -1280000 <= evaluate b <= 1280000.
Proof.
  unfold evaluate, material.
  pose proof (foldl_evaluate_square_bound b SQUARES 0) as H.
  change (Z.of_nat (length SQUARES)) with 64 in H.
  destruct (turn b); lia.
Qed.

(** C10, as amended.  The score of the static evaluation is a function
    of the piece placement and the side to move, and it is antisymmetric
    in the side to move: for one placement, the score with White to move
    is the negation of the score with Black to move.  This holds for the
    evaluation of [mini_uci_engine.py], which does nothing but compute
    the score, and for the score of the copy in
    [engines/stoic_child/egine.py]; that copy also prints one line with
    the FEN of the board on every call. *)
Theorem evaluate_antisymmetric (b1 b2 : Board) (fen1 fen2 : string) :
  (forall sq, (sq < 64)%nat -> piece_at b1 sq = piece_at b2 sq) ->
  (turn b1 = turn b2 ->
     evaluate b1 = evaluate b2 /\
     (stoic_evaluate fen1 b1).2 = (stoic_evaluate fen2 b2).2) /\
  (turn b1 = WHITE -> turn b2 = BLACK ->
     evaluate b1 = - evaluate b2 /\
     (stoic_evaluate fen1 b1).2 = - (stoic_evaluate fen2 b2).2) /\
  (stoic_evaluate fen1 b1).1 = ["Board in fen: " +:+ fen1].
Proof.
  intros H. rewrite !stoic_evaluate_score. split; [|split; [|reflexivity]].
  - intros Ht. pose proof (evaluate_ext b1 b2 H Ht). split; assumption.
  - intros H1 H2.
    assert (evaluate b1 = - evaluate b2) as E; [|split; exact E].
    unfold evaluate. rewrite (material_ext b1 b2 H), H1, H2. lia.
Qed.

End EvaluateFacts.

Lemma evaluate_antisymmetric_witness :
  (turn (Toy.at_position Toy.white_to_move) = turn (Toy.at_position Toy.black_to_move) ->
     evaluate (Toy.at_position Toy.white_to_move)
       = evaluate (Toy.at_position Toy.black_to_move) /\
     (stoic_evaluate "w" (Toy.at_position Toy.white_to_move)).2
       = (stoic_evaluate "b" (Toy.at_position Toy.black_to_move)).2) /\
  (turn (Toy.at_position Toy.white_to_move) = WHITE ->
   turn (Toy.at_position Toy.black_to_move) = BLACK ->
     evaluate (Toy.at_position Toy.white_to_move)
       = - evaluate (Toy.at_position Toy.black_to_move) /\
     (stoic_evaluate "w" (Toy.at_position Toy.white_to_move)).2
       = - (stoic_evaluate "b" (Toy.at_position Toy.black_to_move)).2) /\
  (stoic_evaluate "w" (Toy.at_position Toy.white_to_move)).1 = ["Board in fen: w"].
Proof.
  apply (evaluate_antisymmetric (Toy.at_position Toy.white_to_move)
           (Toy.at_position Toy.black_to_move) "w" "b").
  intros sq _. reflexivity.
Defined.

(** C10, counterexample.  The evaluation of
    [engines/stoic_child/egine.py] is not a pure function of the board:
    a call writes a line to standard output. *)
Lemma stoic_evaluate_prints :
  (stoic_evaluate "w" (Toy.at_position Toy.white_to_move)).1 = ["Board in fen: w"] /\
  (stoic_evaluate "w" (Toy.at_position Toy.white_to_move)).1 <> [].
Proof. split; [reflexivity|discriminate]. Qed.

(** ** Negamax *)

Section NegamaxFacts.
Context {R : Rules}.

(** One unfolding of [negamax], with the bookkeeping of the node counter
    made explicit. *)
Lemma negamax_unfold (fuel : nat) (depth alpha beta : Z) (g : Globals) :
  negamax (S fuel) depth alpha beta g =
    let g0 := set_nodes (nodes g + 1) g in
    let key := get_tt_key (board g) in
    match tt_cutoff (transposition_table g) key depth alpha beta with
    | Some v => Some (v, g0)
    | None =>
        if (depth =? 0) || is_game_over (board g) then Some (evaluate (board g), g0)
        else
          '(max_score, best_local, alpha', g1) ←
            negamax_loop (negamax fuel (depth - 1))
              (sort_reverse (is_capture (board g)) (legal_moves (board g)))
              alpha beta (-9999999) None g0;
          let flag :=
            if max_score <=? alpha' then ALPHA
            else if max_score >=? beta then BETA
            else EXACT in
          Some (max_score,
                set_transposition_table
                  (<[key := mkTTEntry depth max_score flag best_local]>
                     (transposition_table g1)) g1)
    end.
Proof. reflexivity. Qed.

(** The move loop returns as soon as every recursive call does. *)
Lemma negamax_loop_total (search : Z -> Z -> Globals -> option (Z * Globals))
    (moves : list Move) :
  (forall a b g, is_Some (search a b g)) ->
  forall alpha beta max_score best_local g,
    is_Some (negamax_loop search moves alpha beta max_score best_local g).
Proof.
  intros Hs. induction moves as [|mv rest IH]; intros; simpl; [eauto|].
  destruct (Hs (- beta) (- alpha) (set_board (push (board g) mv) g)) as [[r g1] ->].
  simpl. destruct (- r >? max_score); destruct (Z.max alpha (- r) >=? beta); eauto.
Qed.

Lemma negamax_total (n : nat) :
  forall depth alpha beta g,
    Z.to_nat depth = n -> 0 <= depth ->
    is_Some (negamax (S n) depth alpha beta g).
Proof.
  induction n as [|n IH]; intros depth alpha beta g Hn Hd; rewrite negamax_unfold; cbv zeta.
  - destruct (tt_cutoff _ _ _ _ _); [eauto|].
    assert (depth = 0) as -> by lia. simpl. eauto.
  - destruct (tt_cutoff _ _ _ _ _); [eauto|].
    destruct ((depth =? 0) || is_game_over (board g)); [eauto|].
    edestruct (negamax_loop_total (negamax (S n) (depth - 1))) as [[[[ms bl] a'] g1] ->].
    + intros a b g'. apply IH; lia.
    + simpl. eauto.
Qed.

(** More fuel does not change a result. *)
Lemma negamax_loop_mono (search1 search2 : Z -> Z -> Globals -> option (Z * Globals))
    (moves : list Move) :
  (forall a b g r, search1 a b g = Some r -> search2 a b g = Some r) ->
  forall alpha beta max_score best_local g res,
    negamax_loop search1 moves alpha beta max_score best_local g = Some res ->
    negamax_loop search2 moves alpha beta max_score best_local g = Some res.
Proof.
  intros Hs. induction moves as [|mv rest IH]; intros * Hrun; simpl in *; [exact Hrun|].
  destruct (search1 _ _ _) as [[r g1]|] eqn:Hcall; [|discriminate].
  rewrite (Hs _ _ _ _ Hcall). simpl in *.
  destruct (- r >? max_score); destruct (Z.max alpha (- r) >=? beta); auto.
Qed.

Lemma negamax_fuel_mono (fuel : nat) :
  forall depth alpha beta g res,
    negamax fuel depth alpha beta g = Some res ->
    negamax (S fuel) depth alpha beta g = Some res.
Proof.
  induction fuel as [|fuel IH]; intros * Hrun; [discriminate|].
  rewrite negamax_unfold in Hrun. rewrite negamax_unfold. cbv zeta in *.
  destruct (tt_cutoff _ _ _ _ _); [exact Hrun|].
  destruct ((depth =? 0) || is_game_over (board g)); [exact Hrun|].
  destruct (negamax_loop (negamax fuel (depth - 1)) _ _ _ _ _ _)
    as [res'|] eqn:Hloop; [|discriminate].
  rewrite (negamax_loop_mono _ (negamax (S fuel) (depth - 1)) _ (IH (depth - 1))
             _ _ _ _ _ _ Hloop).
  exact Hrun.
Qed.

Lemma negamax_returns (depth alpha beta : Z) (g : Globals) :
  0 <= depth ->
  exists score g', negamax (S (Z.to_nat depth)) depth alpha beta g = Some (score, g').
Proof.
  intros Hd.
  destruct (negamax_total (Z.to_nat depth) depth alpha beta g eq_refl Hd) as [[s g'] E].
  eauto.
Qed.

(** C9. [negamax] terminates for every position and every depth >= 0:
    every recursive call is made with [depth - 1] behind the test
    [depth == 0], so a nesting of [depth + 1] calls (the call itself and
    [depth] levels below it) always suffices to produce the result. *)
Theorem negamax_terminates (depth alpha beta : Z) (g : Globals) :
  0 <= depth ->
  exists score g', negamax (S (Z.to_nat depth)) depth alpha beta g = Some (score, g').
Proof.
  intros Hd.
  destruct (negamax_total (Z.to_nat depth) depth alpha beta g eq_refl Hd) as [[s g'] E].
  eauto.
Qed.

End NegamaxFacts.

Lemma negamax_terminates_witness :
  exists score g',
    negamax (S (Z.to_nat 2)) 2 (-10000000) 10000000 (Toy.fresh Toy.start)
      = Some (score, g').
Proof.
  apply (negamax_terminates 2 (-10000000) 10000000 (Toy.fresh Toy.start)). lia.
Defined.

(** ** The transposition table in [negamax] *)

Section TableFacts.
Context {R : Rules}.

(** C2. If the table holds an entry for the position's key whose depth
    is at least the requested depth, [negamax] returns at once: the
    stored score for an [EXACT] entry, [alpha] for an [ALPHA] (upper
    bound) entry with score [<= alpha], [beta] for a [BETA] (lower
    bound) entry with score [>= beta].  No child position is searched:
    the result needs no nested call ([fuel] may be [0]), and the globals
    change by the one tick of the node counter only. *)
Theorem negamax_tt_cutoff (fuel : nat) (depth alpha beta : Z) (g : Globals)
    (entry : TTEntry) :
  alpha < beta ->
  transposition_table g !! get_tt_key (board g) = Some entry ->
  tt_depth entry >= depth ->
  (tt_flag entry = EXACT ->
     negamax (S fuel) depth alpha beta g
       = Some (tt_score entry, set_nodes (nodes g + 1) g)) /\
  (tt_flag entry = ALPHA -> tt_score entry <= alpha ->
     negamax (S fuel) depth alpha beta g = Some (alpha, set_nodes (nodes g + 1) g)) /\
  (tt_flag entry = BETA -> tt_score entry >= beta ->
     negamax (S fuel) depth alpha beta g = Some (beta, set_nodes (nodes g + 1) g)).
Proof.
  intros _ Hlook Hdepth. rewrite negamax_unfold. cbv zeta.
  unfold tt_cutoff. rewrite Hlook.
  assert ((tt_depth entry >=? depth) = true) as -> by lia.
  repeat split.
  - intros ->. reflexivity.
  - intros -> Hs. simpl.
    assert ((tt_score entry <=? alpha) = true) as -> by lia. reflexivity.
  - intros -> Hs. simpl.
    assert ((tt_score entry >=? beta) = true) as -> by lia. reflexivity.
Qed.

(** The loop keeps [max_score <= alpha] from the moment a best move is
    recorded. *)
Lemma negamax_loop_best (search : Z -> Z -> Globals -> option (Z * Globals))
    (moves : list Move) :
  forall alpha beta max_score best_local g max_score' best_local' alpha' g',
    negamax_loop search moves alpha beta max_score best_local g
      = Some (max_score', best_local', alpha', g') ->
    (best_local <> None -> max_score <= alpha) ->
    best_local' <> None -> max_score' <= alpha'.
Proof.
  induction moves as [|mv rest IH]; intros * Hrun Hinv; simpl in Hrun.
  - injection Hrun as <- <- <- <-. exact Hinv.
  - destruct (search _ _ _) as [[r g1]|]; [simpl in Hrun|discriminate].
    destruct (- r >? max_score) eqn:Hgt;
      destruct (Z.max alpha (- r) >=? beta) eqn:Hcut.
    + injection Hrun as <- <- <- <-. lia.
    + eapply IH; [exact Hrun|]. lia.
    + injection Hrun as <- <- <- <-. intros H. specialize (Hinv H). lia.
    + eapply IH; [exact Hrun|]. intros H. specialize (Hinv H). lia.
Qed.

(** Whenever the loop of [negamax] has run and found a best move, the
    entry it stores carries the flag [ALPHA]: the test
    [max_score <= alpha] reads the [alpha] that the loop has raised to
    at least [max_score]. *)
Lemma negamax_stored_flag (fuel : nat) (depth alpha beta score : Z) (g g' : Globals) :
  negamax (S fuel) depth alpha beta g = Some (score, g') ->
  tt_cutoff (transposition_table g) (get_tt_key (board g)) depth alpha beta = None ->
  ((depth =? 0) || is_game_over (board g)) = false ->
  exists flag best_local,
    transposition_table g' !! get_tt_key (board g)
      = Some (mkTTEntry depth score flag best_local) /\
    (best_local <> None -> flag = ALPHA).
Proof.
  rewrite negamax_unfold. cbv zeta. intros Hrun Hcut Hleaf.
  rewrite Hcut, Hleaf in Hrun.
  destruct (negamax_loop _ _ _ _ _ _ _) as [[[[ms bl] a'] g1]|] eqn:Hloop;
    [simpl in Hrun|discriminate].
  injection Hrun as <- <-. do 2 eexists. split.
  - simpl. apply lookup_insert_eq.
  - intros Hbl.
    assert (ms <= a') as Hle by (eapply negamax_loop_best; eauto; congruence).
    assert ((ms <=? a') = true) as -> by lia. reflexivity.
Qed.

(** C3, as amended.  A call of [negamax] with [depth >= 0] returns, and
    what it leaves in the table depends on the path taken: a call that
    returns through the table cutoff, or at depth 0 or a finished game,
    leaves the table as it was; every other call ends by storing the
    entry [{depth, score, flag, best_move}] with the returned score
    under the key of the position, whatever was stored there before. *)
Theorem negamax_store (depth alpha beta : Z) (g : Globals) :
  0 <= depth ->
  exists score g',
    negamax (S (Z.to_nat depth)) depth alpha beta g = Some (score, g') /\
    match tt_cutoff (transposition_table g) (get_tt_key (board g)) depth alpha beta with
    | Some v => score = v /\ transposition_table g' = transposition_table g
    | None =>
        if (depth =? 0) || is_game_over (board g)
        then score = evaluate (board g) /\ transposition_table g' = transposition_table g
        else exists flag best_local,
               transposition_table g' !! get_tt_key (board g)
                 = Some (mkTTEntry depth score flag best_local)
    end.
Proof.
  intros Hd. destruct (negamax_returns depth alpha beta g Hd) as (score & g' & Hrun).
  exists score, g'. split; [exact Hrun|].
  destruct (tt_cutoff _ _ _ _ _) as [v|] eqn:Hcut.
  - rewrite negamax_unfold in Hrun. cbv zeta in Hrun. rewrite Hcut in Hrun.
    injection Hrun as <- <-. split; reflexivity.
  - destruct ((depth =? 0) || is_game_over (board g)) eqn:Hleaf.
    + rewrite negamax_unfold in Hrun. cbv zeta in Hrun. rewrite Hcut, Hleaf in Hrun.
      injection Hrun as <- <-. split; reflexivity.
    + destruct (negamax_stored_flag _ _ _ _ _ _ _ Hrun Hcut Hleaf) as (fl & bl & H & _).
      eauto.
Qed.



End TableFacts.

Lemma negamax_tt_cutoff_witness :
  let g := Toy.with_entry Toy.start (mkTTEntry 3 42 EXACT None) in
  (EXACT = EXACT ->
     negamax 1 2 (-5) 5 g = Some (42, set_nodes (nodes g + 1) g)) /\
  (EXACT = ALPHA -> 42 <= -5 ->
     negamax 1 2 (-5) 5 g = Some (-5, set_nodes (nodes g + 1) g)) /\
  (EXACT = BETA -> 42 >= 5 ->
     negamax 1 2 (-5) 5 g = Some (5, set_nodes (nodes g + 1) g)).
Proof.
  intros g.
  apply (negamax_tt_cutoff 0 2 (-5) 5 g (mkTTEntry 3 42 EXACT None)).
  - lia.
  - vm_compute. reflexivity.
  - simpl. lia.
Defined.

(** C3, counterexample.  A call at depth 0 on the toy starting position
    with an empty table returns the static evaluation [-220] and leaves
    no entry under the key [100] of the position. *)
Lemma negamax_leaf_stores_nothing :
  (fun r => (r.1, transposition_table r.2 !! 100))
    <$> negamax 1 0 (-10000000) 10000000 (Toy.fresh Toy.start)
  = Some (-220, None).
Proof. vm_compute. reflexivity. Qed.

Lemma negamax_store_witness :
  exists score g',
    negamax (S (Z.to_nat 1)) 1 (-10000000) 10000000 (Toy.fresh Toy.start)
      = Some (score, g') /\
    exists flag best_local,
      transposition_table g' !! 100 = Some (mkTTEntry 1 score flag best_local).
Proof.
  apply (negamax_store 1 (-10000000) 10000000 (Toy.fresh Toy.start)). lia.
Defined.


(** C1.  On the toy starting position, searched at depth 1 with the
    window [(-10000000, 10000000)], the best score is [100], strictly
    inside the window the call was given, so that the rule of C1 asks
    for [EXACT]; the entry stored carries [ALPHA], because line 136
    compares [max_score] with the [alpha] that the loop has raised. *)
Theorem negamax_flag_reads_raised_alpha :
  (fun r => (r.1, transposition_table r.2 !! 100))
    <$> negamax 2 1 (-10000000) 10000000 (Toy.fresh Toy.start)
  = Some (100, Some (@mkTTEntry Toy.rules 1 100 ALPHA (Some 2%nat))) /\
  -10000000 < 100 < 10000000 /\ ALPHA <> EXACT.
Proof.
  split; [vm_compute; reflexivity|]. split; [lia|discriminate].
Qed.

(** ** Move ordering *)

Section OrderingFacts.
Context {A : Type} (key : A -> bool).

Lemma insert_by_key_true (x : A) (l : list A) :
  key x = true -> insert_by_key key x l = x :: l.
Proof. intros H. destruct l; simpl; [reflexivity|]. rewrite H. reflexivity. Qed.

Lemma insert_by_key_quiets (x : A) (l : list A) :
  Forall (fun y => key y = false) l -> insert_by_key key x l = x :: l.
Proof.
  intros H. destruct H as [|y l Hy _]; simpl; [reflexivity|].
  rewrite Hy, andb_false_r. reflexivity.
Qed.

Lemma insert_by_key_behind (x : A) (l1 l2 : list A) :
  key x = false ->
  Forall (fun y => key y = true) l1 ->
  insert_by_key key x (l1 ++ l2) = l1 ++ insert_by_key key x l2.
Proof.
  intros Hx H. induction H as [|y l1 Hy _ IH]; simpl; [reflexivity|].
  rewrite Hx, Hy, IH. reflexivity.
Qed.

(** A stable descending sort on a Boolean key is a stable partition:
    the elements with key [True] in their order, then the others in
    theirs. *)
Lemma sort_reverse_partition (l : list A) :
  sort_reverse key l
    = filter (fun x => key x = true) l ++ filter (fun x => key x = false) l.
Proof.
  induction l as [|x l IH]; [reflexivity|].
  simpl sort_reverse. rewrite IH. rewrite !filter_cons.
  destruct (key x) eqn:Hx.
  - rewrite decide_True by reflexivity. rewrite decide_False by discriminate.
    apply insert_by_key_true, Hx.
  - rewrite decide_False by discriminate. rewrite decide_True by reflexivity.
    rewrite insert_by_key_behind.
    + f_equal. apply insert_by_key_quiets.
      apply Forall_forall. intros y Hy. apply list_elem_of_filter in Hy. tauto.
    + exact Hx.
    + apply Forall_forall. intros y Hy. apply list_elem_of_filter in Hy. tauto.
Qed.

End OrderingFacts.

Section RootOrderingFacts.
Context {R : Rules}.

(** Where the hint ends up: it leads the list when it is a capture, and
    otherwise it leads the quiet moves, behind every capture. *)
Lemma order_root_moves_hint (b : Board) (hint : Move) (moves : list Move) :
  move_truthy hint = true ->
  hint ∈ moves ->
  let rest := list_remove_first hint moves in
  order_root_moves b (Some hint) moves =
    if is_capture b hint
    then hint :: filter (fun m => is_capture b m = true) rest
              ++ filter (fun m => is_capture b m = false) rest
    else filter (fun m => is_capture b m = true) rest
           ++ hint :: filter (fun m => is_capture b m = false) rest.
Proof.
  intros Ht Hin rest. unfold order_root_moves.
  rewrite Ht, bool_decide_eq_true_2 by exact Hin. simpl andb. cbv iota.
  rewrite sort_reverse_partition, !filter_cons. fold rest.
  destruct (is_capture b hint) eqn:Hc.
  - rewrite decide_True by reflexivity. rewrite decide_False by discriminate.
    reflexivity.
  - rewrite decide_False by discriminate. rewrite decide_True by reflexivity.
    reflexivity.
Qed.

End RootOrderingFacts.

(** C4.  On the toy starting position the legal moves are the quiet move
    [1] and the capture [2].  With a table entry that names the quiet
    move [1] as best move, the root move list of [search_root] comes out
    as [[2; 1]]: the hint is a legal move, yet it is not first, because
    the sort of line 166 runs after the hint has been moved to the
    front. *)
Theorem root_moves_quiet_hint_not_first :
  let g := Toy.with_entry Toy.start (@mkTTEntry Toy.rules 1 (-220) ALPHA (Some 1%nat)) in
  legal_moves (board g) = [1%nat; 2%nat] /\
  is_capture (board g) 1%nat = false /\
  is_capture (board g) 2%nat = true /\
  root_moves g = [2%nat; 1%nat].
Proof. repeat split; vm_compute; reflexivity. Qed.

(** ** The search thread *)

Section SearchFacts.
Context {R : Rules}.

#[local] Arguments negamax : simpl never.
#[local] Arguments read_stop : simpl never.
#[local] Arguments time_is_up : simpl never.
#[local] Arguments root_moves : simpl never.

Lemma untouched_refl (g : Globals) : untouched g g.
Proof. split; reflexivity. Qed.

Lemma untouched_trans (g1 g2 g3 : Globals) :
  untouched g1 g2 -> untouched g2 g3 -> untouched g1 g3.
Proof. intros [? ?] [? ?]. split; congruence. Qed.

Lemma negamax_loop_untouched (search : Z -> Z -> Globals -> option (Z * Globals))
    (moves : list Move) :
  (forall a b g r g', search a b g = Some (r, g') -> untouched g g') ->
  forall alpha beta max_score best_local g res g',
    negamax_loop search moves alpha beta max_score best_local g = Some (res, g') ->
    untouched g g'.
Proof.
  intros Hs. induction moves as [|mv rest IH]; intros * Hrun; simpl in Hrun.
  - injection Hrun as <- <-. apply untouched_refl.
  - destruct (search _ _ _) as [[r g1]|] eqn:Hcall; [simpl in Hrun|discriminate].
    apply Hs in Hcall as [Hb Hl]. simpl in Hb, Hl.
    assert (untouched g (set_board (pop (board g1)) g1)) as Hstep.
    { split; simpl; [rewrite Hb; apply pop_push|exact Hl]. }
    destruct (- r >? max_score); destruct (Z.max alpha (- r) >=? beta).
    + injection Hrun as <- <-. exact Hstep.
    + eapply untouched_trans; [exact Hstep|]. eapply IH, Hrun.
    + injection Hrun as <- <-. exact Hstep.
    + eapply untouched_trans; [exact Hstep|]. eapply IH, Hrun.
Qed.

(** Every [push] of the search is undone by its [pop]. *)
Lemma negamax_untouched (fuel : nat) :
  forall depth alpha beta g r g',
    negamax fuel depth alpha beta g = Some (r, g') -> untouched g g'.
Proof.
  induction fuel as [|fuel IH]; intros * Hrun; [discriminate|].
  rewrite negamax_unfold in Hrun. cbv zeta in Hrun.
  destruct (tt_cutoff _ _ _ _ _).
  { injection Hrun as <- <-. split; reflexivity. }
  destruct ((depth =? 0) || is_game_over (board g)).
  { injection Hrun as <- <-. split; reflexivity. }
  destruct (negamax_loop _ _ _ _ _ _ _) as [[[[ms bl] a'] g1]|] eqn:Hloop;
    [simpl in Hrun|discriminate].
  injection Hrun as <- <-.
  apply (negamax_loop_untouched _ _ (IH (depth - 1))) in Hloop as [Hb Hl].
  simpl in Hb, Hl. split; simpl; assumption.
Qed.

Lemma read_stop_untouched (W : Env) (g : Globals) : untouched g (read_stop W g).2.
Proof. split; reflexivity. Qed.

Lemma time_is_up_untouched (W : Env) (limit : option Z) (start : Z) (g : Globals) :
  untouched g (time_is_up W limit start g).2.
Proof.
  unfold time_is_up. destruct limit as [l|]; [|apply untouched_refl].
  destruct (l =? 0); split; reflexivity.
Qed.

(** The loop over the root moves returns, leaves the board and the log
    alone, and keeps [best] when there is no move to try. *)
Lemma root_loop_total (W : Env) (d : Z) (limit : option Z) (start : Z)
    (moves : list Move) :
  1 <= d ->
  forall alpha beta best_score best g,
  exists best_score' best' g',
    root_loop W d limit start moves alpha beta best_score best g
      = Some (best_score', best', g') /\
    untouched g g' /\
    (moves = [] -> best' = best).
Proof.
  intros Hd. induction moves as [|mv rest IH]; intros; cbn [root_loop].
  { do 3 eexists. split; [reflexivity|]. split; [apply untouched_refl|reflexivity]. }
  pose proof (read_stop_untouched W g) as H0.
  destruct (read_stop W g) as [stop g0]. cbn [snd] in H0.
  destruct stop.
  { do 3 eexists. split; [reflexivity|]. split; [exact H0|discriminate]. }
  destruct (negamax_returns (d - 1) (- beta) (- alpha)
              (set_board (push (board g0) mv) g0)) as (r & g1 & Hcall); [lia|].
  rewrite Hcall. cbn [mbind option_bind].
  apply negamax_untouched in Hcall as [Hb Hl]. cbn in Hb, Hl.
  assert (untouched g (set_board (pop (board g1)) g1)) as H1.
  { eapply untouched_trans; [exact H0|].
    split; cbn; [rewrite Hb; apply pop_push|exact Hl]. }
  pose proof (time_is_up_untouched W limit start (set_board (pop (board g1)) g1)) as H2.
  assert (exists bs0 b0,
            (if - r >? best_score then (- r, Some mv) else (best_score, best))
              = (bs0, b0)) as (bs0 & b0 & ->)
    by (destruct (- r >? best_score); eauto).
  destruct (time_is_up W limit start (set_board (pop (board g1)) g1)) as [late g2].
  cbn [snd] in H2.
  assert (untouched g g2) as H3 by (eapply untouched_trans; eassumption).
  destruct late.
  - do 3 eexists. split; [reflexivity|]. split; [|discriminate].
    destruct H3. split; cbn; assumption.
  - edestruct IH as (bs' & b' & g' & -> & H4 & _).
    do 3 eexists. split; [reflexivity|]. split; [|discriminate].
    eapply untouched_trans; eassumption.
Qed.

Lemma order_root_moves_nil (b : Board) (hint : option Move) :
  order_root_moves b hint [] = [].
Proof.
  unfold order_root_moves. destruct hint as [m|]; [|reflexivity].
  rewrite bool_decide_eq_false_2 by apply not_elem_of_nil.
  rewrite andb_false_r. reflexivity.
Qed.

(** The loop over the depths returns, puts the board back, prints only
    [info] lines, and finds no move where there is none. *)
Lemma depth_loop_total (W : Env) (limit : option Z) (start : Z) (depths : list Z) :
  Forall (fun d => 1 <= d) depths ->
  forall best g,
  exists best' g' infos,
    depth_loop W limit start depths best g = Some (best', g') /\
    board g' = board g /\
    log g' = log g ++ (EPrint <$> infos) /\
    Forall info_line infos /\
    (legal_moves (board g) = [] -> best' = best).
Proof.
  intros Hds. induction Hds as [|d rest Hd _ IH]; intros; cbn [depth_loop].
  { exists best, g, []. rewrite app_nil_r. repeat split; constructor. }
  pose proof (read_stop_untouched W g) as [Hb0 Hl0].
  destruct (read_stop W g) as [stop g0]. cbn [snd] in Hb0, Hl0.
  destruct stop.
  { exists best, g0, []. rewrite app_nil_r. repeat split; [assumption..|constructor]. }
  destruct (root_loop_total W d limit start (root_moves g0) Hd
              (-10000000) 10000000 (-9999999) best g0)
    as (bs & b1 & g1 & -> & [Hb1 Hl1] & Hnil).
  cbn [mbind option_bind].
  set (line := "info depth " +:+ pretty d +:+ " nodes "
               +:+ pretty (nodes (set_best_move_global b1 g1))
               +:+ " score cp " +:+ pretty bs).
  set (g2 := print line (set_best_move_global b1 g1)).
  pose proof (time_is_up_untouched W limit start g2) as [Hb3 Hl3].
  destruct (time_is_up W limit start g2) as [late g3]. cbn [snd] in Hb3, Hl3.
  assert (board g3 = board g) as Hb by (rewrite Hb3; cbn; congruence).
  assert (log g3 = log g ++ [EPrint line]) as Hl
    by (rewrite Hl3; cbn; congruence).
  assert (legal_moves (board g) = [] -> b1 = best) as Hbest.
  { intros Hno. apply Hnil. unfold root_moves. rewrite Hb0, Hno.
    apply order_root_moves_nil. }
  destruct late.
  - exists b1, g3, [line]. repeat split; try assumption.
    constructor; [reflexivity|constructor].
  - destruct (IH b1 g3) as (b' & g' & infos & -> & Hb' & Hl' & Hinfo & Hno').
    exists b', g', (line :: infos). repeat split.
    + congruence.
    + rewrite Hl', Hl, <- app_assoc. reflexivity.
    + constructor; [reflexivity|exact Hinfo].
    + intros Hno. rewrite Hno', Hbest; [reflexivity|exact Hno|congruence].
Qed.

Lemma py_range_from_1 (hi : Z) : Forall (fun d => 1 <= d) (py_range 1 hi).
Proof.
  unfold py_range. apply Forall_fmap, Forall_forall. intros i _. simpl. lia.
Qed.

(** [search_root] returns for every depth limit; it prints only [info]
    lines, leaves the board as it found it, and returns no move for a
    position without legal moves. *)
Lemma search_root_total (W : Env) (max_depth : Z) (limit : option Z) (g : Globals) :
  exists best g' infos,
    search_root W max_depth limit g = Some (best, g') /\
    board g' = board g /\
    log g' = log g ++ (EPrint <$> infos) /\
    Forall info_line infos /\
    (legal_moves (board g) = [] -> best = None).
Proof.
  unfold search_root. simpl.
  edestruct (depth_loop_total W limit (time_at W (ticks g))
               (py_range 1 (max_depth + 1)) (py_range_from_1 _) None)
    as (b' & g' & infos & -> & Hb & Hl & Hinfo & Hno).
  exists b', g', infos. repeat split; eauto.
Qed.

Lemma omap_EPrint (lines : list string) :
  omap (fun e => match e with EPrint l => Some l | _ => None end) (EPrint <$> lines)
    = lines.
Proof.
  induction lines as [|l lines IH]; [reflexivity|].
  change (l :: omap (fun e => match e with EPrint l => Some l | _ => None end)
                 (EPrint <$> lines) = l :: lines).
  f_equal. exact IH.
Qed.

(** What is printed between two states whose logs differ by prints. *)
Lemma stdout_extend (g g' : Globals) (lines : list string) :
  log g' = log g ++ (EPrint <$> lines) -> stdout g' = stdout g ++ lines.
Proof.
  intros H. unfold stdout. rewrite H, omap_app, omap_EPrint. reflexivity.
Qed.

(** The search thread always comes to its end; it only prints, and it
    leaves the board as it found it. *)
Lemma think_thread_fn_total (W : Env) (search_args : SearchArgs) (g : Globals) :
  exists g' lines,
    think_thread_fn W search_args g = Some g' /\
    log g' = log g ++ (EPrint <$> lines) /\
    board g' = board g.
Proof.
  unfold think_thread_fn, think_search. cbv zeta.
  edestruct search_root_total as (best & g1 & infos & -> & Hb & Hl & _ & _).
  cbn in Hb, Hl. cbn [mbind option_bind].
  eexists. eexists (infos ++ [_]). split; [reflexivity|].
  split; [|exact Hb].
  cbn [print emit log]. rewrite Hl, fmap_app, <- app_assoc. reflexivity.
Qed.


End SearchFacts.


(** ** The command loop *)

Section SessionFacts.
Context {R : Rules}.

(** Replaying moves stops at the first one that is refused: the
    exception leaves the board as the moves before it have made it. *)
Lemma replay_failure (pushf : Board -> string -> option Board)
    (done : list string) (bad : string) (rest : list string) (g g1 : Globals) :
  replay pushf done g = Continue g1 ->
  pushf (board g1) bad = None ->
  replay pushf (done ++ bad :: rest) g = Raise ValueError g1.
Proof.
  revert g. induction done as [|m done IH]; intros g Hdone Hbad; simpl in *.
  - injection Hdone as ->. rewrite Hbad. reflexivity.
  - destruct (pushf (board g) m) as [b'|]; [|discriminate]. apply IH; assumption.
Qed.

(** An exception raised by a command ends [uci_loop]: the lines that
    follow are never read. *)
Lemma uci_loop_uncaught (W : Env) (line : string) (rest : list string) (e : Exn)
    (g g' : Globals) :
  Py.strip line <> "" ->
  uci_command W (Py.strip line) (settle W 0 g) = Raise e g' ->
  uci_loop W (line :: rest) g = Uncaught e g'.
Proof.
  intros Hne Hcmd. unfold uci_loop. simpl.
  rewrite decide_False by exact Hne. rewrite Hcmd. reflexivity.
Qed.

(** [ucinewgame] clears the table and resets the board at once, whatever
    the state of the search thread. *)
Lemma do_ucinewgame_effects (g : Globals) :
  exists g',
    do_ucinewgame g = Continue g' /\
    log g' = log g ++ [ETTClear; EBoardWrite] /\
    think_thread g' = think_thread g /\
    stop_search g' = stop_search g.
Proof.
  eexists. split; [reflexivity|]. cbn. rewrite <- app_assoc. repeat split.
Qed.

Lemma run_thread_log (W : Env) (args : SearchArgs) (g : Globals) :
  exists lines,
    log (run_thread W args g) = log g ++ (EPrint <$> lines) /\
    board (run_thread W args g) = board g.
Proof.
  unfold run_thread.
  destruct (think_thread_fn_total W args g) as (g' & lines & -> & Hl & Hb).
  exists lines. split; assumption.
Qed.

(** [stop] and [quit] with a search running: the flag is raised, and the
    join returns after the thread has printed its lines. *)
Lemma stop_and_join_effects (W : Env) (g : Globals) (args : SearchArgs) :
  think_thread g = Some (Alive args) ->
  exists lines,
    log (stop_and_join W g)
      = log g ++ [ESetStop] ++ (EPrint <$> lines) ++ [EJoin] /\
    think_thread (stop_and_join W g) = Some Finished.
Proof.
  intros Ht. unfold stop_and_join, join_thread, finish_thread. cbn.
  rewrite Ht. cbn.
  destruct (run_thread_log W args (raise_stop g)) as (lines & Hl & _).
  exists lines. rewrite Hl. cbn. rewrite <- !app_assoc. split; reflexivity.
Qed.

(** [go] with a search still running: the flag is raised and the thread
    joined before the next one is started. *)
Lemma do_go_effects (W : Env) (line : string) (g g' : Globals) (args : SearchArgs) :
  think_thread g = Some (Alive args) ->
  do_go W line g = Continue g' ->
  exists args' lines,
    log g' = log g ++ [ESetStop] ++ (EPrint <$> lines) ++ [EJoin; EStart args'] /\
    think_thread g' = Some (Alive args').
Proof.
  intros Ht. unfold do_go.
  destruct (go_parameter "depth" _) as [e|depth]; [discriminate|].
  destruct (go_parameter "movetime" _) as [e|movetime]; [discriminate|].
  rewrite Ht. intros H. injection H as <-.
  unfold join_thread, finish_thread. cbn. rewrite Ht. cbn.
  destruct (run_thread_log W args (raise_stop g)) as (lines & Hl & _).
  exists (mkArgs depth movetime), lines. rewrite Hl. cbn.
  rewrite <- !app_assoc. split; reflexivity.
Qed.

End SessionFacts.

(** C6.  With the toy rules, [position startpos moves m1 zz m3] applies
    [m1] and is then refused the move [zz]: the [ValueError] leaves
    [uci_loop], with the board at the position after [m1] (key [101]);
    the [isready] that follows is never answered ([readyok] is not
    printed).  Without the bad move the same session answers. *)
Theorem uci_loop_illegal_move_ends_session (W : Env) :
  match uci_loop W ["position startpos moves m1 zz m3"; "isready"]
          (Toy.fresh Toy.stuck) with
  | Uncaught ValueError g => Toy.id (Toy.cur (board g)) = 101 /\ stdout g = []
  | _ => False
  end /\
  match uci_loop W ["position startpos moves m1"; "isready"] (Toy.fresh Toy.stuck) with
  | Returned g => Toy.id (Toy.cur (board g)) = 101 /\ stdout g = ["readyok"]
  | _ => False
  end.
Proof. split; vm_compute; split; reflexivity. Qed.

(** C8.  [go depth 3] followed by [ucinewgame]: the second command
    clears the table and resets the board while the search thread
    started by the first is still alive; no stop request and no join
    comes before the two writes. *)
Theorem ucinewgame_does_not_join :
  match uci_loop Toy.quiet ["go depth 3"; "ucinewgame"] (Toy.fresh Toy.start) with
  | Returned g =>
      log g = [EStart (mkArgs (Some 3) None); ETTClear; EBoardWrite] /\
      think_thread g = Some (Alive (mkArgs (Some 3) None)) /\
      stop_search g = false
  | _ => False
  end.
Proof. vm_compute. repeat split; reflexivity. Qed.


(** * Further properties of the engine *)

(** ** Static evaluation *)

Section EvaluateMore.
Context {R : Rules}.

Lemma foldl_evaluate_square_sum (b : Board) (l : list nat) (acc : Z) :
  foldl (evaluate_square b) acc l
    = acc + foldr Z.add 0 ((fun sq => signed_value (piece_at b sq)) <$> l).
Proof.
  revert acc. induction l as [|sq l IH]; intros acc; csimpl; [lia|].
  rewrite IH, evaluate_square_value. unfold signed_value. lia.
Qed.

Lemma foldr_add_Permutation (l1 l2 : list Z) :
  l1 ≡ₚ l2 -> foldr Z.add 0 l1 = foldr Z.add 0 l2.
Proof. induction 1; simpl; lia. Qed.

Lemma signed_value_swap (p : option Piece) :
  signed_value (swap_color <$> p) = - signed_value p.
Proof. destruct p as [[pt []]|]; simpl; lia. Qed.

(** X1.  The static evaluation stays strictly inside the window
    [(-9999999, 9999999)] from which the search starts: its absolute
    value is at most [64 * 20000]. *)
Theorem evaluate_within_window (b : Board) (fen : string) :
  -1280000 <= evaluate b <= 1280000 /\
  -9999999 < (stoic_evaluate fen b).2 < 9999999.
Proof.
  rewrite stoic_evaluate_score. pose proof (evaluate_bound b). lia.
Qed.

Lemma evaluate_as_sum (b : Board) :
  evaluate b =
    (match turn b with WHITE => 1 | BLACK => -1 end)
    * foldr Z.add 0 ((fun sq => signed_value (piece_at b sq)) <$> SQUARES).
Proof.
  unfold evaluate, material. rewrite foldl_evaluate_square_sum.
  destruct (turn b); lia.
Qed.

(** X2.  The piece-square tables are all zero, so the evaluation is the
    material balance: the sum of the piece values, White's counted
    positively and Black's negatively, seen from the side to move. *)
Theorem evaluate_material_balance (b : Board) :
  evaluate b =
    (match turn b with WHITE => 1 | BLACK => -1 end)
    * foldr Z.add 0 ((fun sq => signed_value (piece_at b sq)) <$> SQUARES).
Proof. apply evaluate_as_sum. Qed.

(** X3.  Colour symmetry.  If [b2] is [b1] with the colours of all pieces
    swapped, the squares rearranged by a permutation [f] of the board
    (such as flipping the ranks) and the other side to move, both
    positions get the same score. *)
Theorem evaluate_color_mirror (b1 b2 : Board) (f : nat -> nat) :
  f <$> SQUARES ≡ₚ SQUARES ->
  (forall sq, (sq < 64)%nat -> piece_at b2 (f sq) = swap_color <$> piece_at b1 sq) ->
  turn b2 <> turn b1 ->
  evaluate b2 = evaluate b1.
Proof.
  intros Hperm Hswap Hturn. rewrite !evaluate_as_sum.
  assert (foldr Z.add 0 ((fun sq => signed_value (piece_at b2 sq)) <$> SQUARES)
          = - foldr Z.add 0 ((fun sq => signed_value (piece_at b1 sq)) <$> SQUARES))
    as ->.
  { rewrite <- (foldr_add_Permutation _ _
                 (fmap_Permutation (fun sq => signed_value (piece_at b2 sq)) _ _ Hperm)).
    rewrite <- list_fmap_compose.
    assert (forall l : list nat, Forall (fun sq => (sq < 64)%nat) l ->
              foldr Z.add 0 ((fun sq => signed_value (piece_at b2 sq)) ∘ f <$> l)
              = - foldr Z.add 0 ((fun sq => signed_value (piece_at b1 sq)) <$> l)) as H.
    { induction 1 as [|sq l Hsq _ IH]; csimpl; [reflexivity|].
      rewrite IH, (Hswap sq Hsq), signed_value_swap. lia. }
    apply H, Forall_forall. intros sq Hsq. apply elem_of_seq in Hsq. lia. }
  destruct (turn b1), (turn b2); try congruence; lia.
Qed.

End EvaluateMore.

Lemma evaluate_color_mirror_witness :
  evaluate (Toy.at_position Toy.mirrored) = evaluate (Toy.at_position Toy.white_to_move).
Proof.
  apply (evaluate_color_mirror (Toy.at_position Toy.white_to_move)
           (Toy.at_position Toy.mirrored) flip_rank).
  - refine (bool_decide_unpack _ _). vm_compute. exact I.
  - intros sq Hsq.
    assert (Forall (fun sq => piece_at (Toy.at_position Toy.mirrored) (flip_rank sq)
                      = swap_color <$> piece_at (Toy.at_position Toy.white_to_move) sq)
              (seq 0 64)) as H.
    { refine (bool_decide_unpack _ _). vm_compute. exact I. }
    rewrite Forall_forall in H. apply H, elem_of_seq. lia.
  - discriminate.
Defined.

(** ** Invariants of [negamax] *)

Section NegamaxInvariants.
Context {R : Rules}.

Lemma same_outside_search_refl (g : Globals) : same_outside_search g g.
Proof. repeat split. Qed.

Lemma same_outside_search_trans (g1 g2 g3 : Globals) :
  same_outside_search g1 g2 -> same_outside_search g2 g3 ->
  same_outside_search g1 g3.
Proof.
  unfold same_outside_search. intros (?&?&?&?&?&?&?&?) (?&?&?&?&?&?&?&?).
  repeat split; congruence.
Qed.

Lemma negamax_loop_same_outside (search : Z -> Z -> Globals -> option (Z * Globals))
    (moves : list Move) :
  (forall a b g r g', search a b g = Some (r, g') -> same_outside_search g g') ->
  forall alpha beta max_score best_local g res g',
    negamax_loop search moves alpha beta max_score best_local g = Some (res, g') ->
    same_outside_search g g'.
Proof.
  intros Hs. induction moves as [|mv rest IH]; intros * Hrun; simpl in Hrun.
  - injection Hrun as <- <-. apply same_outside_search_refl.
  - destruct (search _ _ _) as [[r g1]|] eqn:Hcall; [simpl in Hrun|discriminate].
    apply Hs in Hcall. destruct Hcall as (H1&H2&H3&H4&H5&H6&H7&H8).
    simpl in H1, H2, H3, H4, H5, H6, H7, H8.
    assert (same_outside_search g (set_board (pop (board g1)) g1)) as Hstep.
    { repeat split; simpl; try assumption. rewrite H4. apply pop_push. }
    destruct (- r >? max_score); destruct (Z.max alpha (- r) >=? beta).
    + injection Hrun as <- <-. exact Hstep.
    + eapply same_outside_search_trans; [exact Hstep|]. eapply IH, Hrun.
    + injection Hrun as <- <-. exact Hstep.
    + eapply same_outside_search_trans; [exact Hstep|]. eapply IH, Hrun.
Qed.

Lemma negamax_same_outside (fuel : nat) :
  forall depth alpha beta g r g',
    negamax fuel depth alpha beta g = Some (r, g') -> same_outside_search g g'.
Proof.
  induction fuel as [|fuel IH]; intros * Hrun; [discriminate|].
  rewrite negamax_unfold in Hrun. cbv zeta in Hrun.
  destruct (tt_cutoff _ _ _ _ _).
  { injection Hrun as <- <-. repeat split. }
  destruct ((depth =? 0) || is_game_over (board g)).
  { injection Hrun as <- <-. repeat split. }
  destruct (negamax_loop _ _ _ _ _ _ _) as [[[[ms bl] a'] g1]|] eqn:Hloop;
    [simpl in Hrun|discriminate].
  injection Hrun as <- <-.
  apply (negamax_loop_same_outside _ _ (IH (depth - 1))) in Hloop.
  destruct Hloop as (H1&H2&H3&H4&H5&H6&H7&H8).
  simpl in H1, H2, H3, H4, H5, H6, H7, H8.
  repeat split; simpl; assumption.
Qed.

(** X4.  [negamax] works on the node counter and the table only.  When it
    returns, the board is the one it was given (every [push] has been
    undone by its [pop]), nothing has been printed, and the stop flag,
    the recorded best move, the options and the thread handle are
    untouched. *)
Theorem negamax_leaves_rest_alone (depth alpha beta : Z) (g : Globals) :
  0 <= depth ->
  exists score g',
    negamax (S (Z.to_nat depth)) depth alpha beta g = Some (score, g') /\
    same_outside_search g g'.
Proof.
  intros Hd. destruct (negamax_returns depth alpha beta g Hd) as (score & g' & Hrun).
  exists score, g'. split; [exact Hrun|]. eapply negamax_same_outside, Hrun.
Qed.

Lemma table_grows_refl (d : Z) (g : Globals) : table_grows d g g.
Proof. split; [lia|]. split; auto. Qed.

Lemma table_grows_trans (d : Z) (g1 g2 g3 : Globals) :
  table_grows d g1 g2 -> table_grows d g2 g3 -> table_grows d g1 g3.
Proof.
  intros (Hn1 & Hk1 & He1) (Hn2 & Hk2 & He2). split; [lia|]. split.
  - auto.
  - intros k e H. destruct (He2 k e H) as [H'|H']; [|right; exact H'].
    apply He1, H'.
Qed.

Lemma table_grows_weaken (d d' : Z) (g g' : Globals) :
  d <= d' -> table_grows d g g' -> table_grows d' g g'.
Proof.
  intros Hd (Hn & Hk & He). split; [exact Hn|]. split; [exact Hk|].
  intros k e H. destruct (He k e H) as [H'|H']; [left; exact H'|right; lia].
Qed.

Lemma negamax_loop_table_grows (d : Z)
    (search : Z -> Z -> Globals -> option (Z * Globals)) (moves : list Move) :
  (forall a b g r g', search a b g = Some (r, g') -> table_grows d g g') ->
  forall alpha beta max_score best_local g res g',
    negamax_loop search moves alpha beta max_score best_local g = Some (res, g') ->
    table_grows d g g'.
Proof.
  intros Hs. induction moves as [|mv rest IH]; intros * Hrun; simpl in Hrun.
  - injection Hrun as <- <-. apply table_grows_refl.
  - destruct (search _ _ _) as [[r g1]|] eqn:Hcall; [simpl in Hrun|discriminate].
    apply Hs in Hcall.
    assert (table_grows d g (set_board (pop (board g1)) g1)) as Hstep by exact Hcall.
    destruct (- r >? max_score); destruct (Z.max alpha (- r) >=? beta).
    + injection Hrun as <- <-. exact Hstep.
    + eapply table_grows_trans; [exact Hstep|]. eapply IH, Hrun.
    + injection Hrun as <- <-. exact Hstep.
    + eapply table_grows_trans; [exact Hstep|]. eapply IH, Hrun.
Qed.

Lemma negamax_table_grows (fuel : nat) :
  forall depth alpha beta g r g',
    0 <= depth ->
    negamax fuel depth alpha beta g = Some (r, g') ->
    nodes g < nodes g' /\ table_grows depth g g'.
Proof.
  induction fuel as [|fuel IH]; intros * Hd Hrun; [discriminate|].
  rewrite negamax_unfold in Hrun. cbv zeta in Hrun.
  destruct (tt_cutoff _ _ _ _ _).
  { injection Hrun as <- <-. simpl. split; [lia|].
    split; simpl; [lia|]. split; auto. }
  destruct ((depth =? 0) || is_game_over (board g)) eqn:Hleaf.
  { injection Hrun as <- <-. simpl. split; [lia|].
    split; simpl; [lia|]. split; auto. }
  apply orb_false_iff in Hleaf as [Hnz _]. apply Z.eqb_neq in Hnz.
  destruct (negamax_loop _ _ _ _ _ _ _) as [[[[ms bl] a'] g1]|] eqn:Hloop;
    [simpl in Hrun|discriminate].
  injection Hrun as <- <-.
  apply (negamax_loop_table_grows (depth - 1)) in Hloop.
  2:{ intros a b g0 r0 g0' H0. eapply IH; [|exact H0]. lia. }
  apply (table_grows_weaken _ depth) in Hloop; [|lia].
  destruct Hloop as (Hn & Hk & He). simpl in Hn, Hk, He.
  split; [simpl; lia|]. split; [simpl; lia|]. split; simpl.
  - intros k Hsome. destruct (decide (get_tt_key (board g) = k)) as [->|Hne].
    + rewrite lookup_insert_eq. eauto.
    + rewrite lookup_insert_ne by exact Hne. auto.
  - intros k e. destruct (decide (get_tt_key (board g) = k)) as [->|Hne].
    + rewrite lookup_insert_eq. intros [= <-]. right. simpl. lia.
    + rewrite lookup_insert_ne by exact Hne. auto.
Qed.

(** X5.  The bookkeeping of a search.  A call of [negamax] with
    [depth >= 0] counts at least itself in [nodes]; it never removes a
    key from the transposition table; and every entry of the table that
    was not there before the call has a depth between [1] and [depth]
    (positions reached at depth 0 are never stored). *)
Theorem negamax_bookkeeping (depth alpha beta : Z) (g : Globals) :
  0 <= depth ->
  exists score g',
    negamax (S (Z.to_nat depth)) depth alpha beta g = Some (score, g') /\
    nodes g < nodes g' /\
    (forall k, is_Some (transposition_table g !! k) ->
               is_Some (transposition_table g' !! k)) /\
    (forall k e, transposition_table g' !! k = Some e ->
                 transposition_table g !! k = Some e \/ 1 <= tt_depth e <= depth).
Proof.
  intros Hd. destruct (negamax_returns depth alpha beta g Hd) as (score & g' & Hrun).
  exists score, g'. split; [exact Hrun|].
  destruct (negamax_table_grows _ _ _ _ _ _ _ Hd Hrun) as (Hn & _ & Hk & He).
  auto.
Qed.

Lemma sort_reverse_elem_of {A} (key : A -> bool) (l : list A) (x : A) :
  x ∈ sort_reverse key l <-> x ∈ l.
Proof.
  rewrite sort_reverse_partition, elem_of_app, !list_elem_of_filter. split.
  - intros [[_ H]|[_ H]]; exact H.
  - intros H. destruct (key x); [left|right]; split; auto.
Qed.

Lemma negamax_loop_best_so_far (search : Z -> Z -> Globals -> option (Z * Globals))
    (all : list Move) (moves : list Move) :
  (forall m, m ∈ moves -> m ∈ all) ->
  forall alpha beta max_score best_local g max_score' best_local' alpha' g',
    negamax_loop search moves alpha beta max_score best_local g
      = Some (max_score', best_local', alpha', g') ->
    best_so_far all max_score best_local ->
    best_so_far all max_score' best_local'.
Proof.
  induction moves as [|mv rest IH]; intros Hin * Hrun Hinv; simpl in Hrun.
  - injection Hrun as <- <- <- <-. exact Hinv.
  - destruct (search _ _ _) as [[r g1]|]; [simpl in Hrun|discriminate].
    assert (best_so_far all
              (if - r >? max_score then - r else max_score)
              (if - r >? max_score then Some mv else best_local)) as Hstep.
    { destruct (- r >? max_score) eqn:Hgt; [|exact Hinv].
      right. exists mv. split; [reflexivity|]. split; [apply Hin; left|].
      destruct Hinv as [[_ ->]|(m & _ & _ & Hm)]; lia. }
    assert (forall m, m ∈ rest -> m ∈ all) as Hin' by (intros; apply Hin; right; done).
    destruct (- r >? max_score); destruct (Z.max alpha (- r) >=? beta).
    + injection Hrun as <- <- <- <-. exact Hstep.
    + eapply IH; eauto.
    + injection Hrun as <- <- <- <-. exact Hstep.
    + eapply IH; eauto.
Qed.

(** X6.  What a completed move loop reports.  When [negamax] gets past the
    table probe and the leaf test, the entry it stores names a best
    move only if that move is a legal move of the position, and the
    score it returns is the sentinel [-9999999] exactly when no best
    move was found (no move scored above the sentinel). *)
Theorem negamax_best_move_legal (depth alpha beta : Z) (g : Globals) :
  0 <= depth ->
  tt_cutoff (transposition_table g) (get_tt_key (board g)) depth alpha beta = None ->
  ((depth =? 0) || is_game_over (board g)) = false ->
  exists score g' flag best_local,
    negamax (S (Z.to_nat depth)) depth alpha beta g = Some (score, g') /\
    transposition_table g' !! get_tt_key (board g)
      = Some (mkTTEntry depth score flag best_local) /\
    (forall m, best_local = Some m -> m ∈ legal_moves (board g)) /\
    (best_local = None <-> score = -9999999) /\
    -9999999 <= score.
Proof.
  intros Hd Hcut Hleaf.
  destruct (negamax_returns depth alpha beta g Hd) as (score & g' & Hrun).
  pose proof Hrun as Hrun'.
  rewrite negamax_unfold in Hrun'. cbv zeta in Hrun'. rewrite Hcut, Hleaf in Hrun'.
  destruct (negamax_loop _ _ _ _ _ _ _) as [[[[ms bl] a'] g1]|] eqn:Hloop;
    [simpl in Hrun'|discriminate].
  injection Hrun' as <- <-.
  eapply (negamax_loop_best_so_far _ (legal_moves (board g))) in Hloop.
  2:{ intros m Hm. simpl in Hm. apply sort_reverse_elem_of in Hm. exact Hm. }
  2:{ left. split; reflexivity. }
  do 4 eexists. split; [exact Hrun|]. split; [simpl; apply lookup_insert_eq|].
  destruct Hloop as [[-> ->]|(m & -> & Hm & Hgt)].
  - split; [discriminate|]. split; [tauto|lia].
  - split; [intros m' [= <-]; exact Hm|]. split; [|lia].
    split; [discriminate|lia].
Qed.

End NegamaxInvariants.

Lemma negamax_leaves_rest_alone_witness :
  exists score g',
    negamax (S (Z.to_nat 2)) 2 (-10000000) 10000000 (Toy.fresh Toy.start)
      = Some (score, g') /\
    same_outside_search (Toy.fresh Toy.start) g'.
Proof.
  apply (negamax_leaves_rest_alone 2 (-10000000) 10000000 (Toy.fresh Toy.start)). lia.
Defined.

Lemma negamax_bookkeeping_witness :
  exists score g',
    negamax (S (Z.to_nat 2)) 2 (-10000000) 10000000 (Toy.fresh Toy.start)
      = Some (score, g') /\
    nodes (Toy.fresh Toy.start) < nodes g' /\
    (forall k, is_Some (transposition_table (Toy.fresh Toy.start) !! k) ->
               is_Some (transposition_table g' !! k)) /\
    (forall k e, transposition_table g' !! k = Some e ->
                 transposition_table (Toy.fresh Toy.start) !! k = Some e
                 \/ 1 <= tt_depth e <= 2).
Proof.
  apply (negamax_bookkeeping 2 (-10000000) 10000000 (Toy.fresh Toy.start)). lia.
Defined.

Lemma negamax_best_move_legal_witness :
  exists score g' flag best_local,
    negamax (S (Z.to_nat 2)) 2 (-10000000) 10000000 (Toy.fresh Toy.start)
      = Some (score, g') /\
    transposition_table g' !! 100 = Some (mkTTEntry 2 score flag best_local) /\
    (forall m, best_local = Some m -> m ∈ legal_moves (Toy.at_position Toy.start)) /\
    (best_local = None <-> score = -9999999) /\
    -9999999 <= score.
Proof.
  apply (negamax_best_move_legal 2 (-10000000) 10000000 (Toy.fresh Toy.start)).
  - lia.
  - vm_compute. reflexivity.
  - reflexivity.
Defined.

(** ** Move ordering, continued *)

Section OrderingMore.
Context {R : Rules}.

Lemma filter_key_Permutation {A} (key : A -> bool) (l : list A) :
  filter (fun x => key x = true) l ++ filter (fun x => key x = false) l ≡ₚ l.
Proof.
  induction l as [|x l IH]; [reflexivity|]. rewrite !filter_cons.
  destruct (key x).
  - rewrite decide_True by reflexivity. rewrite decide_False by discriminate.
    simpl. constructor. exact IH.
  - rewrite decide_False by discriminate. rewrite decide_True by reflexivity.
    rewrite <- Permutation_middle. constructor. exact IH.
Qed.

Lemma filter_key_none {A} (key : A -> bool) (l : list A) :
  Forall (fun x => key x = false) l -> filter (fun x => key x = true) l = [].
Proof.
  induction 1 as [|x l Hx _ IH]; [reflexivity|].
  rewrite filter_cons, decide_False by congruence. exact IH.
Qed.

Lemma sort_reverse_Permutation {A} (key : A -> bool) (l : list A) :
  sort_reverse key l ≡ₚ l.
Proof. rewrite sort_reverse_partition. apply filter_key_Permutation. Qed.

Lemma list_remove_first_Permutation (x : Move) (l : list Move) :
  x ∈ l -> x :: list_remove_first x l ≡ₚ l.
Proof.
  induction l as [|y l IH]; intros Hin; [inversion Hin|]. simpl.
  destruct (decide (y = x)) as [->|Hne]; [reflexivity|].
  rewrite Permutation_swap. constructor. apply IH.
  apply elem_of_cons in Hin as [->|Hin]; [congruence|exact Hin].
Qed.

Lemma order_root_moves_Permutation (b : Board) (hint : option Move)
    (moves : list Move) :
  order_root_moves b hint moves ≡ₚ moves.
Proof.
  unfold order_root_moves. rewrite sort_reverse_Permutation.
  destruct hint as [m|]; [|reflexivity].
  destruct (move_truthy m); [|reflexivity]. simpl.
  destruct (bool_decide (m ∈ moves)) eqn:Hin; [|reflexivity].
  apply list_remove_first_Permutation.
  apply (bool_decide_eq_true_1 (m ∈ moves)), Hin.
Qed.

(** X7.  The order in which [negamax] tries the moves of a position: all
    captures, in the order the move generator lists them, then all
    other moves, in that order too; no move is lost or repeated. *)
Theorem negamax_move_order (b : Board) :
  sort_reverse (is_capture b) (legal_moves b)
    = filter (fun m => is_capture b m = true) (legal_moves b)
      ++ filter (fun m => is_capture b m = false) (legal_moves b) /\
  sort_reverse (is_capture b) (legal_moves b) ≡ₚ legal_moves b.
Proof. split; [apply sort_reverse_partition|apply sort_reverse_Permutation]. Qed.

Lemma root_moves_perm (g : Globals) : root_moves g ≡ₚ legal_moves (board g).
Proof. unfold root_moves. apply order_root_moves_Permutation. Qed.

(** X8.  Whatever the hint, the root move list of [search_root] is a
    rearrangement of the legal moves: each is tried once at every depth,
    none is dropped or doubled by the [remove]/[insert] of the hint. *)
Theorem root_moves_Permutation (g : Globals) :
  root_moves g ≡ₚ legal_moves (board g).
Proof. apply root_moves_perm. Qed.

(** X9.  The hint does lead the root move list when it is itself a capture,
    and also when the position has no capture at all. *)
Theorem order_root_moves_hint_first (b : Board) (hint : Move) (moves : list Move) :
  move_truthy hint = true ->
  hint ∈ moves ->
  is_capture b hint = true \/ (forall m, m ∈ moves -> is_capture b m = false) ->
  head (order_root_moves b (Some hint) moves) = Some hint.
Proof.
  intros Ht Hin Hcase. rewrite (order_root_moves_hint b hint moves Ht Hin). cbv zeta.
  destruct (is_capture b hint) eqn:Hc; [reflexivity|].
  destruct Hcase as [?|Hquiet]; [discriminate|].
  assert (filter (fun m => is_capture b m = true) (list_remove_first hint moves) = [])
    as ->; [|reflexivity].
  apply filter_key_none, Forall_forall. intros m Hm. apply Hquiet.
  rewrite <- (list_remove_first_Permutation hint moves Hin). right. exact Hm.
Qed.

End OrderingMore.

Lemma order_root_moves_hint_first_witness :
  head (order_root_moves (Toy.at_position Toy.start) (Some 2%nat) [1%nat; 2%nat])
    = Some 2%nat.
Proof.
  apply (order_root_moves_hint_first (Toy.at_position Toy.start) 2%nat [1%nat; 2%nat]).
  - reflexivity.
  - right. left.
  - left. reflexivity.
Defined.

(** ** Iterative deepening, continued *)

Section SearchMore.
Context {R : Rules}.

#[local] Arguments negamax : simpl never.
#[local] Arguments read_stop : simpl never.
#[local] Arguments time_is_up : simpl never.
#[local] Arguments root_moves : simpl never.

(** The root loop keeps [best] or replaces it by one of its moves. *)
Lemma root_loop_best (W : Env) (d : Z) (limit : option Z) (start : Z)
    (moves : list Move) :
  forall alpha beta best_score best g best_score' best' g',
    root_loop W d limit start moves alpha beta best_score best g
      = Some (best_score', best', g') ->
    best' = best \/ exists m, best' = Some m /\ m ∈ moves.
Proof.
  induction moves as [|mv rest IH]; intros * Hrun; cbn [root_loop] in Hrun.
  { injection Hrun as <- <- <-. left. reflexivity. }
  destruct (read_stop W g) as [stop g0]. destruct stop.
  { injection Hrun as <- <- <-. left. reflexivity. }
  destruct (negamax _ _ _ _ _) as [[r g1]|]; [|discriminate].
  cbn [mbind option_bind] in Hrun.
  assert (forall b0 : option Move,
            (b0 = best \/ b0 = Some mv) ->
            (b0 = best \/ exists m, b0 = Some m /\ m ∈ mv :: rest)) as Hhere.
  { intros b0 [->| ->]; [left; reflexivity|right; exists mv; split; [reflexivity|left]]. }
  destruct (- r >? best_score);
    destruct (time_is_up W limit start _) as [late g2]; destruct late.
  - injection Hrun as <- <- <-. apply Hhere. right. reflexivity.
  - apply IH in Hrun as [->|(m & -> & Hm)].
    + apply Hhere. right. reflexivity.
    + right. exists m. split; [reflexivity|right; exact Hm].
  - injection Hrun as <- <- <-. left. reflexivity.
  - apply IH in Hrun as [->|(m & -> & Hm)].
    + left. reflexivity.
    + right. exists m. split; [reflexivity|right; exact Hm].
Qed.

(** What the loop over the depths does, in full. *)
Lemma depth_loop_facts (W : Env) (limit : option Z) (start : Z) (depths : list Z) :
  Forall (fun d => 1 <= d) depths ->
  forall best g,
  exists best' g' infos,
    depth_loop W limit start depths best g = Some (best', g') /\
    board g' = board g /\
    log g' = log g ++ (EPrint <$> infos) /\
    Forall info_line infos /\
    (length infos <= length depths)%nat /\
    (best' = best \/ exists m, best' = Some m /\ m ∈ legal_moves (board g)).
Proof.
  intros Hds. induction Hds as [|d rest Hd _ IH]; intros; cbn [depth_loop].
  { exists best, g, []. rewrite app_nil_r.
    repeat split; [constructor|reflexivity|left; reflexivity]. }
  pose proof (read_stop_untouched W g) as [Hb0 Hl0].
  destruct (read_stop W g) as [stop g0]. cbn [snd] in Hb0, Hl0.
  destruct stop.
  { exists best, g0, []. rewrite app_nil_r.
    repeat split; [assumption..|constructor|cbn; lia|left; reflexivity]. }
  destruct (root_loop_total W d limit start (root_moves g0) Hd
              (-10000000) 10000000 (-9999999) best g0)
    as (bs & b1 & g1 & Hroot & [Hb1 Hl1] & _).
  rewrite Hroot. apply root_loop_best in Hroot.
  cbn [mbind option_bind].
  set (line := "info depth " +:+ pretty d +:+ " nodes "
               +:+ pretty (nodes (set_best_move_global b1 g1))
               +:+ " score cp " +:+ pretty bs).
  set (g2 := print line (set_best_move_global b1 g1)).
  pose proof (time_is_up_untouched W limit start g2) as [Hb3 Hl3].
  destruct (time_is_up W limit start g2) as [late g3]. cbn [snd] in Hb3, Hl3.
  assert (board g3 = board g) as Hb by (rewrite Hb3; cbn; congruence).
  assert (log g3 = log g ++ [EPrint line]) as Hl
    by (rewrite Hl3; cbn; congruence).
  assert (b1 = best \/ exists m, b1 = Some m /\ m ∈ legal_moves (board g)) as Hbest.
  { destruct Hroot as [->|(m & -> & Hm)]; [left; reflexivity|].
    right. exists m. split; [reflexivity|].
    rewrite <- Hb0. rewrite <- (root_moves_perm g0). exact Hm. }
  destruct late.
  - exists b1, g3, [line]. repeat split; try assumption.
    + constructor; [reflexivity|constructor].
    + cbn. lia.
  - destruct (IH b1 g3) as (b' & g' & infos & -> & Hb' & Hl' & Hinfo & Hlen & Hbest').
    exists b', g', (line :: infos). repeat split.
    + congruence.
    + rewrite Hl', Hl, <- app_assoc. reflexivity.
    + constructor; [reflexivity|exact Hinfo].
    + cbn. lia.
    + destruct Hbest' as [->|(m & -> & Hm)]; [exact Hbest|].
      right. exists m. split; [reflexivity|]. rewrite <- Hb. exact Hm.
Qed.

Lemma py_range_length (hi : Z) : length (py_range 1 hi) = Z.to_nat (hi - 1).
Proof. unfold py_range. rewrite length_fmap, length_seq. reflexivity. Qed.

Lemma search_root_facts (W : Env) (max_depth : Z) (limit : option Z) (g : Globals) :
  exists best g' infos,
    search_root W max_depth limit g = Some (best, g') /\
    board g' = board g /\
    log g' = log g ++ (EPrint <$> infos) /\
    Forall info_line infos /\
    (length infos <= Z.to_nat max_depth)%nat /\
    (forall m, best = Some m -> m ∈ legal_moves (board g)).
Proof.
  unfold search_root. simpl.
  edestruct (depth_loop_facts W limit (time_at W (ticks g))
               (py_range 1 (max_depth + 1)) (py_range_from_1 _) None)
    as (b' & g' & infos & -> & Hb & Hl & Hinfo & Hlen & Hbest).
  exists b', g', infos. repeat split; eauto.
  - rewrite py_range_length in Hlen. lia.
  - intros m ->. destruct Hbest as [?|(m' & [= <-] & Hm)]; [discriminate|exact Hm].
Qed.

(** X10.  [search_root] always returns.  It leaves the board as it found it,
    prints one [info] line for each depth it has started on, at most
    [max_depth] of them, and the move it returns, if any, is a legal
    move of the position. *)
Theorem search_root_report (W : Env) (max_depth : Z) (limit : option Z)
    (g : Globals) :
  exists best g' infos,
    search_root W max_depth limit g = Some (best, g') /\
    board g' = board g /\
    stdout g' = stdout g ++ infos /\
    Forall info_line infos /\
    (length infos <= Z.to_nat max_depth)%nat /\
    (forall m, best = Some m -> m ∈ legal_moves (board g)).
Proof.
  destruct (search_root_facts W max_depth limit g)
    as (best & g' & infos & Hrun & Hb & Hl & Hinfo & Hlen & Hbest).
  exists best, g', infos. repeat split; try assumption.
  apply stdout_extend, Hl.
Qed.

(** X11.  With a depth limit below 1, or with a stop request that is seen at
    the first look at the flag, [search_root] returns no move; it has
    visited no node and printed nothing. *)
Theorem search_root_no_search (W : Env) (max_depth : Z) (limit : option Z)
    (g : Globals) :
  max_depth <= 0 \/ stop_seen W (polls g) = true ->
  exists g',
    search_root W max_depth limit g = Some (None, g') /\
    nodes g' = 0 /\ log g' = log g /\ board g' = board g.
Proof.
  intros Hcase. unfold search_root. cbn [time_time fst snd].
  destruct (py_range 1 (max_depth + 1)) as [|d rest] eqn:Hrange.
  { eexists. split; [reflexivity|]. repeat split. }
  destruct Hcase as [Hd|Hstop].
  { exfalso. assert (length (py_range 1 (max_depth + 1)) = 0%nat) as Hlen
      by (rewrite py_range_length; lia).
    rewrite Hrange in Hlen. discriminate. }
  cbn [depth_loop]. unfold read_stop. cbn. rewrite Hstop. cbn.
  eexists. split; [reflexivity|]. repeat split.
Qed.


End SearchMore.

Lemma search_root_no_search_witness :
  exists g',
    search_root Toy.quiet 0 None (Toy.fresh Toy.start) = Some (None, g') /\
    nodes g' = 0 /\ log g' = log (Toy.fresh Toy.start) /\
    board g' = board (Toy.fresh Toy.start).
Proof.
  apply (search_root_no_search Toy.quiet 0 None (Toy.fresh Toy.start)).
  left. lia.
Defined.


(** ** The command loop, continued *)

Section SessionMore.
Context {R : Rules}.

Lemma index_app_here (x : string) (pre rest : list string) :
  x ∉ pre -> Py.index x (pre ++ x :: rest) = Some (length pre).
Proof.
  induction pre as [|y pre IH]; intros Hnot; simpl.
  - rewrite decide_True by reflexivity. reflexivity.
  - apply not_elem_of_cons in Hnot as [Hne Hnot].
    rewrite decide_False by congruence. rewrite IH by exact Hnot. reflexivity.
Qed.

Lemma index_None (x : string) (l : list string) : x ∉ l -> Py.index x l = None.
Proof.
  induction l as [|y l IH]; intros Hnot; simpl; [reflexivity|].
  apply not_elem_of_cons in Hnot as [Hne Hnot].
  rewrite decide_False by congruence. rewrite IH by exact Hnot. reflexivity.
Qed.

(** X14.  [setoption name <N> value <V>]: the words between [name] and
    [value], joined by single spaces, become the option name, the words
    after [value] its value; the pair is stored (replacing an earlier
    value of that option) and nothing else changes. *)
Theorem do_setoption_stores (line : string) (pre ns vs : list string) (g : Globals) :
  Py.split line = pre ++ "name" :: ns ++ "value" :: vs ->
  "name" ∉ pre -> "value" ∉ pre -> "value" ∉ ns ->
  do_setoption line g
    = Continue (set_engine_options
                  (<[Py.join " " ns := Py.join " " vs]> (engine_options g)) g) /\
  engine_options (outcome_globals (do_setoption line g)) !! Py.join " " ns
    = Some (Py.join " " vs).
Proof.
  intros Hsplit Hn Hv1 Hv2.
  assert (do_setoption line g
          = Continue (set_engine_options
                        (<[Py.join " " ns := Py.join " " vs]> (engine_options g)) g))
    as Hrun.
  { unfold do_setoption. rewrite Hsplit.
    rewrite (index_app_here "name" pre _ Hn).
    replace (pre ++ "name" :: ns ++ "value" :: vs)
      with ((pre ++ "name" :: ns) ++ "value" :: vs)
      by (rewrite <- app_assoc; reflexivity).
    rewrite (index_app_here "value" (pre ++ "name" :: ns) vs).
    2:{ intros H. apply elem_of_app in H as [H|H]; [exact (Hv1 H)|].
        apply elem_of_cons in H as [H|H]; [discriminate|exact (Hv2 H)]. }
    unfold Py.slice.
    replace (length (pre ++ "name" :: ns) + 1 - 1 - (length pre + 1))%nat
      with (length ns) by (rewrite length_app; simpl; lia).
    replace (length (pre ++ "name" :: ns) + 1)%nat
      with (length ((pre ++ "name" :: ns) ++ ["value"]))
      by (rewrite !length_app; simpl; lia).
    replace ((pre ++ "name" :: ns) ++ "value" :: vs)
      with (((pre ++ "name" :: ns) ++ ["value"]) ++ vs)
      by (rewrite <- !app_assoc; reflexivity).
    rewrite drop_app_length.
    replace (((pre ++ "name" :: ns) ++ ["value"]) ++ vs)
      with ((pre ++ ["name"]) ++ ns ++ "value" :: vs)
      by (rewrite <- !app_assoc; reflexivity).
    replace (length pre + 1)%nat with (length (pre ++ ["name"]))
      by (rewrite length_app; reflexivity).
    rewrite drop_app_length, take_app_length. reflexivity. }
  split; [exact Hrun|]. rewrite Hrun. simpl. apply lookup_insert_eq.
Qed.

(** X15.  A [setoption] line that lacks the word [name] or the word [value]
    is dropped without any effect. *)
Theorem do_setoption_malformed (line : string) (g : Globals) :
  "name" ∉ Py.split line \/ "value" ∉ Py.split line ->
  do_setoption line g = Continue g.
Proof.
  intros Hcase. unfold do_setoption.
  destruct (Py.index "name" (Py.split line)) as [i|] eqn:Hi; [|reflexivity].
  destruct Hcase as [Hn|Hv].
  - rewrite (index_None _ _ Hn) in Hi. discriminate.
  - rewrite (index_None _ _ Hv). reflexivity.
Qed.

(** X16.  Replaying a move list either accepts every move, and the command
    goes on with the board the moves lead to, or raises [ValueError] at
    the first move that is refused, and then the moves before it stay
    applied: there is no roll-back.  Nothing is printed either way, and
    the table is not touched. *)
Theorem replay_outcome (pushf : Board -> string -> option Board)
    (moves : list string) (g : Globals) :
  stdout (outcome_globals (replay pushf moves g)) = stdout g /\
  transposition_table (outcome_globals (replay pushf moves g))
    = transposition_table g /\
  match apply_moves pushf moves (board g) with
  | Some b' => exists g', replay pushf moves g = Continue g' /\ board g' = b'
  | None =>
      exists g' done bad rest,
        replay pushf moves g = Raise ValueError g' /\
        moves = done ++ bad :: rest /\
        apply_moves pushf done (board g) = Some (board g') /\
        pushf (board g') bad = None
  end.
Proof.
  revert g. induction moves as [|m rest IH]; intros g; simpl.
  { repeat split. eauto. }
  destruct (pushf (board g) m) as [b'|] eqn:Hpush.
  - specialize (IH (emit EBoardWrite (set_board b' g))).
    destruct IH as (Hout & Htt & Hcase). split; [|split].
    + rewrite Hout. unfold stdout. simpl. rewrite omap_app. simpl.
      apply app_nil_r.
    + rewrite Htt. reflexivity.
    + simpl in Hcase. destruct (apply_moves pushf rest b') as [b''|].
      * exact Hcase.
      * destruct Hcase as (g' & done & bad & rest' & Hrun & -> & Hdone & Hbad).
        exists g', (m :: done), bad, rest'. simpl. rewrite Hpush. auto.
  - repeat split. exists g, [], m, rest. simpl. auto.
Qed.




Lemma replay_table (pushf : Board -> string -> option Board) (moves : list string)
    (g : Globals) :
  transposition_table (outcome_globals (replay pushf moves g))
    = transposition_table g.
Proof.
  revert g. induction moves as [|m rest IH]; intros g; simpl; [reflexivity|].
  destruct (pushf (board g) m) as [b'|]; [|reflexivity].
  rewrite IH. reflexivity.
Qed.

Lemma do_position_table (line : string) (g : Globals) :
  transposition_table (outcome_globals (do_position line g)) = transposition_table g.
Proof.
  unfold do_position.
  destruct (Py.split line !! 1%nat) as [t1|]; [|reflexivity].
  destruct (decide (t1 = "startpos")) as [Hs|Hs].
  - destruct (Py.contains "moves" (Py.split line)); [|reflexivity].
    rewrite replay_table. reflexivity.
  - destruct (decide (t1 = "fen")) as [Hf|Hf]; [|reflexivity].
    destruct (if Py.contains "moves" (drop 2 (Py.split line)) then _ else _)
      as [fen moves].
    destruct (set_fen fen) as [b'|]; [|reflexivity].
    rewrite replay_table. reflexivity.
Qed.

Lemma stop_and_join_idle (W : Env) (g : Globals) :
  search_alive g = false ->
  transposition_table (stop_and_join W g) = transposition_table g.
Proof.
  unfold search_alive, stop_and_join, join_thread, finish_thread. cbn.
  destruct (think_thread g) as [[a|]|]; [discriminate|reflexivity..].
Qed.

(** X19.  The transposition table belongs to the search.  While no
    search thread is running, a command of the loop leaves the table
    exactly as it is, with one exception: [ucinewgame] empties it. *)
Theorem uci_command_table (W : Env) (line : string) (g : Globals) :
  search_alive g = false ->
  transposition_table (outcome_globals (uci_command W line g)) = transposition_table g \/
  (Py.startswith line "ucinewgame" = true /\
   transposition_table (outcome_globals (uci_command W line g)) = ∅).
Proof.
  intros Halive. unfold uci_command.
  destruct (decide (line = "uci")); [left; reflexivity|].
  destruct (decide (line = "isready")); [left; reflexivity|].
  destruct (Py.startswith line "setoption").
  { left. unfold do_setoption.
    destruct (Py.index "name" _); [|reflexivity].
    destruct (Py.index "value" _); reflexivity. }
  destruct (Py.startswith line "ucinewgame").
  { right. split; reflexivity. }
  destruct (Py.startswith line "position").
  { left. apply do_position_table. }
  destruct (Py.startswith line "go").
  { left. unfold do_go.
    destruct (go_parameter "depth" _) as [e|depth]; [reflexivity|].
    destruct (go_parameter "movetime" _) as [e|movetime]; [reflexivity|].
    unfold search_alive in Halive.
    destruct (think_thread g) as [[a|]|]; [discriminate|reflexivity..]. }
  destruct (decide (line = "stop")); [left; apply stop_and_join_idle, Halive|].
  destruct (decide (line = "quit")); [left; apply stop_and_join_idle, Halive|].
  left. reflexivity.
Qed.

Lemma uci_loop_from_quit (W : Env) (lines rest : list string) (q : string) :
  Py.strip q = "quit" ->
  forall k g,
    uci_loop_from W k (lines ++ q :: rest) g = uci_loop_from W k (lines ++ [q]) g.
Proof.
  intros Hq. induction lines as [|line lines IH]; intros k g; simpl.
  - rewrite Hq. reflexivity.
  - destruct (decide (Py.strip line = "")); [apply IH|].
    destruct (uci_command W (Py.strip line) (settle W k g)); [apply IH|reflexivity..].
Qed.

(** X20.  Nothing is read after [quit]: the lines that follow a [quit] line
    (with or without blanks around it) have no effect on where the loop
    ends. *)
Theorem uci_loop_quit (W : Env) (lines rest : list string) (q : string)
    (g : Globals) :
  Py.strip q = "quit" ->
  uci_loop W (lines ++ q :: rest) g = uci_loop W (lines ++ [q]) g.
Proof. intros Hq. apply uci_loop_from_quit, Hq. Qed.

End SessionMore.

Lemma do_setoption_stores_witness :
  do_setoption "setoption name Hash Size value 64 MB" (Toy.fresh Toy.start)
    = Continue (set_engine_options
                  (<[Py.join " " ["Hash"; "Size"] := Py.join " " ["64"; "MB"]]>
                     (engine_options (Toy.fresh Toy.start))) (Toy.fresh Toy.start)) /\
  engine_options (outcome_globals
                    (do_setoption "setoption name Hash Size value 64 MB"
                       (Toy.fresh Toy.start)))
    !! Py.join " " ["Hash"; "Size"] = Some (Py.join " " ["64"; "MB"]).
Proof.
  apply (do_setoption_stores "setoption name Hash Size value 64 MB"
           ["setoption"] ["Hash"; "Size"] ["64"; "MB"] (Toy.fresh Toy.start)).
  - vm_compute. reflexivity.
  - apply not_elem_of_cons. split; [discriminate|apply not_elem_of_nil].
  - apply not_elem_of_cons. split; [discriminate|apply not_elem_of_nil].
  - apply not_elem_of_cons. split; [discriminate|].
    apply not_elem_of_cons. split; [discriminate|apply not_elem_of_nil].
Defined.

Lemma do_setoption_malformed_witness :
  do_setoption "setoption Hash 64" (Toy.fresh Toy.start)
    = Continue (Toy.fresh Toy.start).
Proof.
  apply (do_setoption_malformed "setoption Hash 64" (Toy.fresh Toy.start)).
  left. vm_compute.
  intros H. repeat (apply elem_of_cons in H as [H|H]; [discriminate|]).
  apply elem_of_nil in H. exact H.
Defined.


Lemma uci_command_table_witness :
  transposition_table
    (outcome_globals (uci_command Toy.quiet "position startpos moves m1"
                        (Toy.with_entry Toy.start (mkTTEntry 3 42 EXACT None))))
    = transposition_table (Toy.with_entry Toy.start (mkTTEntry 3 42 EXACT None)) \/
  (Py.startswith "position startpos moves m1" "ucinewgame" = true /\
   transposition_table
     (outcome_globals (uci_command Toy.quiet "position startpos moves m1"
                         (Toy.with_entry Toy.start (mkTTEntry 3 42 EXACT None)))) = ∅).
Proof.
  apply (uci_command_table Toy.quiet "position startpos moves m1"
           (Toy.with_entry Toy.start (mkTTEntry 3 42 EXACT None))).
  reflexivity.
Defined.

Lemma uci_loop_quit_witness :
  uci_loop Toy.quiet (["isready"] ++ " quit " :: ["uci"]) (Toy.fresh Toy.start)
    = uci_loop Toy.quiet (["isready"] ++ [" quit "]) (Toy.fresh Toy.start).
Proof.
  apply (uci_loop_quit Toy.quiet ["isready"] ["uci"] " quit " (Toy.fresh Toy.start)).
  vm_compute. reflexivity.
Defined.

(** ** A one-ply search *)

Section OnePly.
Context {R : Rules}.

#[local] Arguments negamax : simpl never.
#[local] Arguments root_moves : simpl never.

(** At depth 0, with nothing in the table, [negamax] is the static
    evaluation. *)
Lemma negamax_leaf_empty (alpha beta : Z) (g : Globals) :
  transposition_table g = ∅ ->
  negamax 1 0 alpha beta g = Some (evaluate (board g), set_nodes (nodes g + 1) g).
Proof.
  intros Htt. rewrite negamax_unfold. cbv zeta. unfold tt_cutoff.
  rewrite Htt, lookup_empty. reflexivity.
Qed.

Lemma root_loop_one_ply (W : Env) (start : Z) (moves : list Move) :
  (forall k, stop_seen W k = false) ->
  forall best_score best g,
    transposition_table g = ∅ ->
    stop_search g = false ->
    exists best_score' best' g',
      root_loop W 1 None start moves (-10000000) 10000000 best_score best g
        = Some (best_score', best', g') /\
      transposition_table g' = ∅ /\
      stop_search g' = false /\
      board g' = board g /\
      log g' = log g /\
      best_score <= best_score' /\
      (forall m, m ∈ moves -> - evaluate (push (board g) m) <= best_score') /\
      ((best_score' = best_score /\ best' = best) \/
       exists m, m ∈ moves /\ best' = Some m /\
                 best_score' = - evaluate (push (board g) m)).
Proof.
  intros Hquiet. induction moves as [|mv rest IH]; intros * Htt Hstop;
    cbn [root_loop].
  { do 3 eexists. split; [reflexivity|]. repeat split; try assumption; try lia.
    - intros m Hm. inversion Hm.
    - left. split; reflexivity. }
  unfold read_stop. rewrite Hstop, Hquiet. cbn [orb].
  change (S (Z.to_nat (1 - 1))) with 1%nat. change (1 - 1) with 0.
  rewrite negamax_leaf_empty by exact Htt. cbn [mbind option_bind].
  cbn [board set_board set_nodes set_polls set_stop_search]. rewrite pop_push.
  set (score := - evaluate (push (board g) mv)).
  set (g1 := set_board (board g) _).
  assert (transposition_table g1 = ∅) as Htt1 by exact Htt.
  assert (stop_search g1 = false) as Hstop1 by reflexivity.
  assert (board g1 = board g) as Hb1 by reflexivity.
  assert (log g1 = log g) as Hl1 by reflexivity.
  cbn [time_is_up].
  destruct (score >? best_score) eqn:Hgt.
  - destruct (IH score (Some mv) g1 Htt1 Hstop1)
      as (bs' & b' & g' & -> & Htt' & Hstop' & Hb' & Hl' & Hle & Hall & Hbest).
    do 3 eexists. split; [reflexivity|]. rewrite Hb1 in *.
    repeat split; try congruence; try lia.
    + intros m Hm. apply elem_of_cons in Hm as [->|Hm]; [exact Hle|apply Hall, Hm].
    + right. destruct Hbest as [[-> ->]|(m & Hm & -> & ->)].
      * exists mv. repeat split. left.
      * exists m. repeat split. right. exact Hm.
  - destruct (IH best_score best g1 Htt1 Hstop1)
      as (bs' & b' & g' & -> & Htt' & Hstop' & Hb' & Hl' & Hle & Hall & Hbest).
    do 3 eexists. split; [reflexivity|]. rewrite Hb1 in *.
    repeat split; try congruence; try lia.
    + intros m Hm. apply elem_of_cons in Hm as [->|Hm]; [|apply Hall, Hm].
      fold score. lia.
    + destruct Hbest as [[-> ->]|(m & Hm & -> & ->)].
      * left. split; reflexivity.
      * right. exists m. repeat split. right. exact Hm.
Qed.

(** X12.  A search to depth 1, started with an empty table, no time limit and
    no stop request, returns a legal move that is best by static
    evaluation: no other legal move leads to a position that the
    evaluation rates lower for the opponent.  It prints one [info] line
    and leaves the board as it was. *)
Theorem search_root_one_ply (W : Env) (g : Globals) :
  (forall k, stop_seen W k = false) ->
  transposition_table g = ∅ ->
  legal_moves (board g) <> [] ->
  exists m g' line,
    search_root W 1 None g = Some (Some m, g') /\
    m ∈ legal_moves (board g) /\
    (forall m', m' ∈ legal_moves (board g) ->
       evaluate (push (board g) m) <= evaluate (push (board g) m')) /\
    stdout g' = stdout g ++ [line] /\
    board g' = board g.
Proof.
  intros Hquiet Htt Hmoves. unfold search_root. cbn [time_time fst snd].
  change (py_range 1 (1 + 1)) with [1]. cbn [depth_loop].
  unfold read_stop. cbn [stop_search set_stop_search set_nodes set_ticks polls].
  rewrite Hquiet. cbn [orb].
  match goal with |- context [root_loop W 1 None ?s (root_moves ?g0) _ _ ?bs ?b ?g0] =>
    destruct (root_loop_one_ply W s (root_moves g0) Hquiet bs b g0 Htt eq_refl)
      as (bs' & b' & g' & -> & Htt' & Hstop' & Hb' & Hl' & Hle & Hall & Hbest);
    pose proof (root_moves_perm g0) as Hperm
  end.
  cbn [board set_polls set_stop_search set_nodes set_ticks] in Hb', Hall, Hbest, Hperm.
  cbn [log set_polls set_stop_search set_nodes set_ticks] in Hl'.
  cbn [mbind option_bind time_is_up depth_loop].
  destruct (legal_moves (board g)) as [|m0 ms] eqn:Hlegal; [done|].
  assert (forall m, m ∈ m0 :: ms -> - evaluate (push (board g) m) <= bs') as Hall'.
  { intros m Hm. apply Hall. rewrite Hperm. exact Hm. }
  destruct Hbest as [[-> _]|(m & Hm & -> & ->)].
  { exfalso. specialize (Hall' m0 ltac:(left)).
    pose proof (evaluate_bound (push (board g) m0)). lia. }
  do 3 eexists. split; [reflexivity|]. split; [rewrite <- Hperm; exact Hm|].
  split; [intros m' Hm'; specialize (Hall' m' Hm'); lia|].
  split; [|exact Hb'].
  apply (stdout_extend _ _ [_]). cbn [print emit log set_best_move_global fmap list_fmap].
  rewrite Hl'. reflexivity.
Qed.

Lemma replay_board (pushf : Board -> string -> option Board) (moves : list string) :
  forall g1 g2,
    board g1 = board g2 ->
    board (outcome_globals (replay pushf moves g1))
      = board (outcome_globals (replay pushf moves g2)).
Proof.
  induction moves as [|m rest IH]; intros g1 g2 Hb; simpl; [exact Hb|].
  rewrite Hb. destruct (pushf (board g2) m) as [b'|]; [|exact Hb].
  apply IH. reflexivity.
Qed.

(** X21.  [position startpos ...] is absolute: the board it leaves, whether
    all moves are accepted or the command ends at a refused move, is the
    same whatever the board was before the command. *)
Theorem do_position_startpos_absolute (line : string) (g1 g2 : Globals) :
  Py.split line !! 1%nat = Some "startpos" ->
  board (outcome_globals (do_position line g1))
    = board (outcome_globals (do_position line g2)).
Proof.
  intros Hs. unfold do_position. rewrite Hs.
  rewrite decide_True by reflexivity.
  destruct (Py.contains "moves" (Py.split line)); [|reflexivity].
  apply replay_board. reflexivity.
Qed.

End OnePly.

Lemma search_root_one_ply_witness :
  exists (m : @Move Toy.rules) (g' : @Globals Toy.rules) line,
    search_root Toy.quiet 1 None (Toy.fresh Toy.start) = Some (Some m, g') /\
    m ∈ legal_moves (board (Toy.fresh Toy.start)) /\
    (forall m', m' ∈ legal_moves (board (Toy.fresh Toy.start)) ->
       evaluate (push (board (Toy.fresh Toy.start)) m)
         <= evaluate (push (board (Toy.fresh Toy.start)) m')) /\
    stdout g' = stdout (Toy.fresh Toy.start) ++ [line] /\
    board g' = board (Toy.fresh Toy.start).
Proof.
  apply (search_root_one_ply Toy.quiet (Toy.fresh Toy.start)).
  - intros k. reflexivity.
  - reflexivity.
  - discriminate.
Defined.

Lemma do_position_startpos_absolute_witness :
  board (outcome_globals (do_position "position startpos moves m1" (Toy.fresh Toy.stuck)))
    = board (outcome_globals (do_position "position startpos moves m1"
                                (Toy.fresh Toy.start))).
Proof.
  apply (do_position_startpos_absolute "position startpos moves m1"
           (Toy.fresh Toy.stuck) (Toy.fresh Toy.start)).
  vm_compute. reflexivity.
Defined.
